(** * The x86 paging-structure (page-walk) cache of gem5-pwc

    A shallow embedding of [src/arch/x86/translation_cache.{hh,cc}]:
    the per-level translation cache [BaseTranslationCache] with its
    fixed entry pool, free list, prefix index and LRU eviction, the
    three level-specific key derivations, and the aggregate
    [PageStructureCache].

    Pointers into the entry pool ([TranslationCacheEntry *]) are slot
    numbers.  Assertions are taken as compiled in; a [panic], a failed
    [assert] and an access outside the pool (or to the front of an empty
    free list) are the three ways an operation can fail to return. *)

From Stdlib Require Import ZArith Lia String.
From stdpp Require Import base list.

Local Open Scope Z_scope.

(** ** Machine integers *)

(** [Addr] and [uint64_t]: integers in [0, 2^64). *)
Definition Addr := Z.

Definition wrap64 (x : Z) : Z := x mod 2 ^ 64.

(** [~(Addr)0] *)
Definition ones64 : Z := 2 ^ 64 - 1.

(** [x << n] and [x >> n] on a 64-bit unsigned value. *)
Definition shl64 (x n : Z) : Z := wrap64 (Z.shiftl x n).
Definition shr64 (x n : Z) : Z := Z.shiftr x n.

(** [~x] on a 64-bit unsigned value. *)
Definition not64 (x : Z) : Z := Z.lxor x ones64.

(** Modelled from the spec: [mask] of [base/bitfield.hh], which is not
    among the sources; a word with the [nbits] low bits set. *)
Definition mask (nbits : Z) : Z :=
  if 64 <=? nbits then ones64 else Z.shiftl 1 nbits - 1.

(** Modelled from the spec: [mbits] of [base/bitfield.hh], which is not
    among the sources.  The spec's key table says "extract bits
    [first:last]"; the bits stay at their position, the others are
    cleared. *)
Definition mbits (val first last : Z) : Z :=
  Z.land val (Z.land (mask (first + 1)) (not64 (mask last))).

(** The payload, a 64-bit page table entry compared with [==]. *)
Definition PageTableEntry := Z.

(** ** Outcomes of an operation *)

Inductive Fault : Type :=
  | Panic (msg : string)
  | AssertionFailed (cond : string)
  | OutOfBounds.

Inductive Outcome (A : Type) : Type :=
  | Ret (a : A)
  | Abort (f : Fault).
Arguments Ret {A} a.
Arguments Abort {A} f.

#[global] Instance Outcome_ret : MRet Outcome := fun A a => Ret a.

#[global] Instance Outcome_bind : MBind Outcome := fun A B k m =>
  match m with
  | Ret a => k a
  | Abort f => Abort f
  end.

Definition returns {A : Type} (m : Outcome A) : Prop := exists a, m = Ret a.

(** ** The prefix index *)

Module Trie.

(** Modelled from the spec: the generic prefix index of [base/trie.hh]
    is not among the sources.  The spec calls it "a prefix-keyed lookup
    structure mapping keys to occupied entries": a node holds a key
    prefix, the mask of its significant bits, and the entry it maps to. *)
Record Node : Type := mkNode { key : Addr; nmask : Addr; value : nat }.

(** Modelled from the spec: a handle names the node that an insertion
    created, by its prefix and mask. *)
Record Handle : Type := mkHandle { hkey : Addr; hmask : Addr }.

(** Modelled from the spec: the index is the collection of its nodes. *)
Definition t : Type := list Node.

(** Modelled from the spec: [MaxBits], the width of a key ([Addr]). *)
Definition MaxBits : Z := 64.

(** Modelled from the spec: the index of a new cache holds no node. *)
Definition empty : t := [].

(** Modelled from the spec: the handle that names a node. *)
Definition handleOf (n : Node) : Handle := mkHandle (key n) (nmask n).

(** Modelled from the spec: equality of handles. *)
Definition handle_eqb (h1 h2 : Handle) : bool :=
  (hkey h1 =? hkey h2) && (hmask h1 =? hmask h2).

(** Modelled from the spec: a probed key carries the prefix of a node. *)
Definition matches (n : Node) (test : Addr) : bool :=
  Z.land test (nmask n) =? key n.

(** Modelled from the spec: the mask that keeps the [width] high bits. *)
Definition widthMask (width : Z) : Addr :=
  if width <? MaxBits then shl64 ones64 (MaxBits - width) else ones64.

(** Modelled from the spec: [lookup] returns the entry of the node
    whose prefix the probed key carries, if there is one. *)
Definition lookup (tr : t) (k : Addr) : option nat :=
  value <$> List.find (fun n => matches n k) tr.

(** Modelled from the spec: [insert] registers the [width] high bits
    of [k] as the prefix of [val] and returns the node's handle. *)
Definition insert (tr : t) (k : Addr) (width : Z) (val : nat) : t * Handle :=
  let m := widthMask width in
  let n := mkNode (Z.land k m) m val in
  (n :: tr, handleOf n).

(** Modelled from the spec: [remove] drops the node a handle names. *)
Definition remove (tr : t) (h : Handle) : t :=
  List.filter (fun n => negb (handle_eqb (handleOf n) h)) tr.

End Trie.

(** ** Entries, addressing modes and levels *)

Record TranslationCacheEntry : Type := mkEntry {
  index : Addr;
  nextStepEntry : PageTableEntry;
  lruSeq : Z;
  trieHandle : option Trie.Handle
}.

Inductive LegacyAcc : Type :=
  | NONE
  | LEGACY_32b_PAE
  | LEGACY_32b_NO_PAE.

(** The three classes derived from [BaseTranslationCache]; the tag
    selects the override of the virtual [legacyMask]. *)
Inductive Level : Type :=
  | PML4Cache
  | PDPCache
  | PDECache.

Definition legacyMask (lvl : Level) (vpn : Addr) (la : LegacyAcc) : Outcome Addr :=
  match lvl with
  | PML4Cache =>
      match la with
      | NONE => Ret vpn
      | LEGACY_32b_PAE | LEGACY_32b_NO_PAE =>
          Abort (Panic "PML4 cache should not be used in legacy mode")
      end
  | PDPCache =>
      match la with
      | NONE => Ret vpn
      | LEGACY_32b_PAE => Ret (mbits vpn 31 30)
      | LEGACY_32b_NO_PAE =>
          Abort (Panic "PDP cache should not be used in this mode: %d")
      end
  | PDECache =>
      match la with
      | NONE => Ret vpn
      | LEGACY_32b_PAE => Ret (mbits vpn 31 21)
      | LEGACY_32b_NO_PAE => Ret (mbits vpn 31 22)
      end
  end.

(** The modes a level's [legacyMask] returns for. *)
Definition supported (lvl : Level) (la : LegacyAcc) : bool :=
  match lvl, la with
  | PML4Cache, NONE => true
  | PML4Cache, _ => false
  | PDPCache, LEGACY_32b_NO_PAE => false
  | PDPCache, _ => true
  | PDECache, _ => true
  end.

(** The five [statistics::Scalar] counters. *)
Record TranslationCacheStats : Type := mkStats {
  stat_flush : nat;
  stat_insert : nat;
  stat_evict : nat;
  stat_hit : nat;
  stat_miss : nat
}.

Local Close Scope Z_scope.

(** ** The per-level cache *)

Module BaseTranslationCache.

(** The object's fields.  [lruSeqCtr] is the class member [lruSeq]
    (the entries have a field of that name too); [level] is the
    dynamic class of the object. *)
Record t : Type := mk {
  size : nat;
  lruSeqCtr : Z;
  level : Level;
  myName : string;
  idxMaskBitsH : Z;
  idxMaskBitsL : Z;
  addrMask : Addr;
  freeList : list nat;
  tc : list TranslationCacheEntry;
  trie : Trie.t;
  stats : TranslationCacheStats
}.

Definition set_lruSeqCtr (c : t) (s : Z) : t :=
  mk (size c) s (level c) (myName c) (idxMaskBitsH c) (idxMaskBitsL c)
     (addrMask c) (freeList c) (tc c) (trie c) (stats c).

Definition set_freeList (c : t) (fl : list nat) : t :=
  mk (size c) (lruSeqCtr c) (level c) (myName c) (idxMaskBitsH c)
     (idxMaskBitsL c) (addrMask c) fl (tc c) (trie c) (stats c).

Definition set_tc (c : t) (v : list TranslationCacheEntry) : t :=
  mk (size c) (lruSeqCtr c) (level c) (myName c) (idxMaskBitsH c)
     (idxMaskBitsL c) (addrMask c) (freeList c) v (trie c) (stats c).

Definition set_trie (c : t) (tr : Trie.t) : t :=
  mk (size c) (lruSeqCtr c) (level c) (myName c) (idxMaskBitsH c)
     (idxMaskBitsL c) (addrMask c) (freeList c) (tc c) tr (stats c).

Definition set_stats (c : t) (st : TranslationCacheStats) : t :=
  mk (size c) (lruSeqCtr c) (level c) (myName c) (idxMaskBitsH c)
     (idxMaskBitsL c) (addrMask c) (freeList c) (tc c) (trie c) st.

Definition set_trieHandle (e : TranslationCacheEntry)
    (h : option Trie.Handle) : TranslationCacheEntry :=
  mkEntry (index e) (nextStepEntry e) (lruSeq e) h.

Definition set_lruSeq (e : TranslationCacheEntry) (s : Z) : TranslationCacheEntry :=
  mkEntry (index e) (nextStepEntry e) s (trieHandle e).

Definition incr_flush (st : TranslationCacheStats) : TranslationCacheStats :=
  mkStats (S (stat_flush st)) (stat_insert st) (stat_evict st) (stat_hit st) (stat_miss st).
Definition incr_insert (st : TranslationCacheStats) : TranslationCacheStats :=
  mkStats (stat_flush st) (S (stat_insert st)) (stat_evict st) (stat_hit st) (stat_miss st).
Definition incr_evict (st : TranslationCacheStats) : TranslationCacheStats :=
  mkStats (stat_flush st) (stat_insert st) (S (stat_evict st)) (stat_hit st) (stat_miss st).
Definition incr_hit (st : TranslationCacheStats) : TranslationCacheStats :=
  mkStats (stat_flush st) (stat_insert st) (stat_evict st) (S (stat_hit st)) (stat_miss st).
Definition incr_miss (st : TranslationCacheStats) : TranslationCacheStats :=
  mkStats (stat_flush st) (stat_insert st) (stat_evict st) (stat_hit st) (S (stat_miss st)).

(** [uint64_t nextSeq() { return ++lruSeq; }] *)
Definition nextSeq (c : t) : t * Z :=
  let s := wrap64 (lruSeqCtr c + 1) in (set_lruSeqCtr c s, s).

Definition getIdxMaskBitsL (c : t) : Z := idxMaskBitsL c.

Definition maskVpn (c : t) (vpn : Addr) : Addr := Z.land (addrMask c) vpn.

(** The three statements that return slot [i] to the free list, as
    [evictLRU] and [flush] both write them:
    [trie.remove(tc[i].trieHandle); tc[i].trieHandle = NULL;
     freeList.push_back(&tc[i]);] *)
Definition release (c : t) (i : nat) (e : TranslationCacheEntry)
    (h : Trie.Handle) : t :=
  let c1 := set_trie c (Trie.remove (trie c) h) in
  let c2 := set_tc c1 (<[i := set_trieHandle e None]> (tc c1)) in
  set_freeList c2 (freeList c2 ++ [i]).

(** The scan of [evictLRU]: [idxs] are the slots still to visit, [lru]
    the best slot so far. *)
Fixpoint scanLRU (v : list TranslationCacheEntry) (idxs : list nat)
    (lru : nat) : Outcome nat :=
  match idxs with
  | [] => Ret lru
  | i :: rest_idxs =>
      match v !! i, v !! lru with
      | Some ei, Some el =>
          scanLRU v rest_idxs (if (lruSeq ei <? lruSeq el)%Z then i else lru)
      | _, _ => Abort OutOfBounds
      end
  end.

Definition evictLRU (c : t) : Outcome t :=
  lru ← scanLRU (tc c) (seq 1 (size c - 1)) 0;
  match tc c !! lru with
  | None => Abort OutOfBounds
  | Some e =>
      match trieHandle e with
      | None => Abort (AssertionFailed "tc[lru].trieHandle")
      | Some h =>
          let c1 := release c lru e h in
          Ret (set_stats c1 (incr_evict (stats c1)))
      end
  end.

(** The constructor.  [seq0] is the value the member [lruSeq] happens
    to hold: the constructor does not initialise it.  The pool is
    value-initialised, and the loop clears every handle and pushes
    the slots [0 .. size-1] onto the free list in that order. *)
Definition new (_name : string) (lvl : Level) (_size : nat)
    (_idx_mask_bits_h _idx_mask_bits_l : Z) (seq0 : Z) : t :=
  {| size := _size;
     lruSeqCtr := seq0;
     level := lvl;
     myName := _name;
     idxMaskBitsH := _idx_mask_bits_h;
     idxMaskBitsL := _idx_mask_bits_l;
     addrMask := Z.land (shr64 ones64 _idx_mask_bits_h)
                        (shl64 ones64 _idx_mask_bits_l);
     freeList := seq 0 _size;
     tc := replicate _size (mkEntry 0%Z 0%Z 0%Z None);
     trie := Trie.empty;
     stats := mkStats 0 0 0 0 0 |}.

Definition insert (c : t) (vpn : Addr) (ptentry : PageTableEntry)
    (la : LegacyAcc) : Outcome (t * nat) :=
  v ← legacyMask (level c) vpn la;
  let idx := maskVpn c v in
  match Trie.lookup (trie c) idx with
  | Some s =>
      match tc c !! s with
      | None => Abort OutOfBounds
      | Some e =>
          if negb (index e =? idx)%Z
          then Abort (AssertionFailed "newEntry->index == idx")
          else if negb (nextStepEntry e =? ptentry)%Z
          then Abort (AssertionFailed "newEntry->nextStepEntry == ptentry")
          else Ret (c, s)
      end
  | None =>
      c1 ← (match freeList c with
            | [] => evictLRU c
            | _ :: _ => Ret c
            end);
      match freeList c1 with
      | [] => Abort OutOfBounds
      | s :: rest =>
          let c2 := set_freeList c1 rest in
          match tc c2 !! s with
          | None => Abort OutOfBounds
          | Some _ =>
              let '(c3, sq) := nextSeq c2 in
              let '(tr, h) :=
                Trie.insert (trie c3) idx
                  (Trie.MaxBits - getIdxMaskBitsL c3)%Z s in
              let c4 := set_trie c3 tr in
              let c5 := set_tc c4 (<[s := mkEntry idx ptentry sq (Some h)]> (tc c4)) in
              Ret (set_stats c5 (incr_insert (stats c5)), s)
          end
      end
  end.

Definition lookup (c : t) (va : Addr) (la : LegacyAcc) (update_lru : bool)
    : Outcome (t * option nat) :=
  v ← legacyMask (level c) va la;
  match Trie.lookup (trie c) (maskVpn c v) with
  | Some s =>
      let c1 := set_stats c (incr_hit (stats c)) in
      if update_lru then
        match tc c1 !! s with
        | None => Abort OutOfBounds
        | Some e =>
            let '(c2, sq) := nextSeq c1 in
            Ret (set_tc c2 (<[s := set_lruSeq e sq]> (tc c2)), Some s)
        end
      else Ret (c1, Some s)
  | None => Ret (set_stats c (incr_miss (stats c)), None)
  end.

Definition flushSlot (c : t) (i : nat) : Outcome t :=
  match tc c !! i with
  | None => Abort OutOfBounds
  | Some e =>
      match trieHandle e with
      | Some h => Ret (release c i e h)
      | None => Ret c
      end
  end.

Fixpoint flushLoop (c : t) (idxs : list nat) : Outcome t :=
  match idxs with
  | [] => Ret c
  | i :: rest_idxs => c' ← flushSlot c i; flushLoop c' rest_idxs
  end.

Definition flush (c : t) : Outcome t :=
  c' ← flushLoop c (seq 0 (size c));
  Ret (set_stats c' (incr_flush (stats c'))).

(** The number of occupied entries: those that hold a handle. *)
Definition occupied (c : t) : nat :=
  length (filter (fun e => is_Some (trieHandle e)) (tc c)).

End BaseTranslationCache.

(** ** The three levels and the aggregate *)

Module PageStructureCache.

Definition newPML4Cache (_name : string) (_size : nat) (seq0 : Z) : BaseTranslationCache.t :=
  BaseTranslationCache.new _name PML4Cache _size 12%Z 39%Z seq0.

Definition newPDPCache (_name : string) (_size : nat) (seq0 : Z) : BaseTranslationCache.t :=
  BaseTranslationCache.new _name PDPCache _size 12%Z 30%Z seq0.

Definition newPDECache (_name : string) (_size : nat) (seq0 : Z) : BaseTranslationCache.t :=
  BaseTranslationCache.new _name PDECache _size 12%Z 21%Z seq0.

Record t : Type := mk {
  pml4Cache : BaseTranslationCache.t;
  pdpCache : BaseTranslationCache.t;
  pdeCache : BaseTranslationCache.t
}.

Definition new (ownerName : string) (pml4c_size pdpc_size pdec_size : nat)
    (s1 s2 s3 : Z) : t :=
  {| pml4Cache := newPML4Cache (ownerName ++ ".pml4Cache") pml4c_size s1;
     pdpCache := newPDPCache (ownerName ++ ".pdpCache") pdpc_size s2;
     pdeCache := newPDECache (ownerName ++ ".pdeCache") pdec_size s3 |}.

Definition flush (p : t) : Outcome t :=
  c1 ← BaseTranslationCache.flush (pml4Cache p);
  c2 ← BaseTranslationCache.flush (pdpCache p);
  c3 ← BaseTranslationCache.flush (pdeCache p);
  Ret (mk c1 c2 c3).

End PageStructureCache.

(** * Vocabulary of the statements *)

Module C := BaseTranslationCache.

(** The constructor's relation between the bit-width parameters and
    [addrMask]; a shift by 64 or more is excluded. *)
Definition wellConfigured (c : C.t) : Prop :=
  (0 <= C.idxMaskBitsL c < 64)%Z /\
  C.addrMask c = Z.land (shr64 ones64 (C.idxMaskBitsH c))
                        (shl64 ones64 (C.idxMaskBitsL c)).

(** The mask of the nodes that [insert] registers. *)
Definition indexMask (c : C.t) : Addr :=
  Trie.widthMask (Trie.MaxBits - C.getIdxMaskBitsL c).

(** The pool has [size] entries; the free list holds free slots, each
    once; free list and occupied entries together make up the pool; and
    every node of the index belongs to the occupied entry that holds its
    handle and its key. *)
Record Inv (c : C.t) : Prop := mkInv {
  inv_len : length (C.tc c) = C.size c;
  inv_cfg : wellConfigured c;
  inv_nodup : NoDup (C.freeList c);
  inv_free : forall s, s ∈ C.freeList c ->
    exists e, C.tc c !! s = Some e /\ trieHandle e = None;
  inv_count : length (C.freeList c) + C.occupied c = C.size c;
  inv_owner : forall n, n ∈ C.trie c ->
    exists e, C.tc c !! Trie.value n = Some e
      /\ trieHandle e = Some (Trie.handleOf n)
      /\ index e = Trie.key n
      /\ Trie.nmask n = indexMask c
}.

(** The recency stamp of slot [i]. *)
Definition stampAt (v : list TranslationCacheEntry) (i : nat) : Z :=
  from_option lruSeq 0%Z (v !! i).

(** Among the slots below [n], slot [r] holds the least recency stamp,
    and no slot before [r] holds the same stamp. *)
Definition firstMin (v : list TranslationCacheEntry) (n r : nat) : Prop :=
  r < n /\
  forall j, j < n ->
    (stampAt v r <= stampAt v j)%Z /\ (j < r -> (stampAt v r < stampAt v j)%Z).

(** The state after [insert] took slot [s] from the front of the free
    list [s :: rest] of [c1] for the key [idx]. *)
Definition allocate (c1 : C.t) (s : nat) (rest : list nat) (idx : Addr)
    (ptentry : PageTableEntry) : C.t :=
  let c2 := C.set_freeList c1 rest in
  let '(c3, sq) := C.nextSeq c2 in
  let '(tr, h) :=
    Trie.insert (C.trie c3) idx (Trie.MaxBits - C.getIdxMaskBitsL c3)%Z s in
  let c4 := C.set_trie c3 tr in
  let c5 := C.set_tc c4 (<[s := mkEntry idx ptentry sq (Some h)]> (C.tc c4)) in
  C.set_stats c5 (C.incr_insert (C.stats c5)).

(** The fields set at construction and never assigned afterwards. *)
Definition sameConfig (c c' : C.t) : Prop :=
  C.size c' = C.size c /\ C.level c' = C.level c
  /\ C.idxMaskBitsH c' = C.idxMaskBitsH c
  /\ C.idxMaskBitsL c' = C.idxMaskBitsL c
  /\ C.addrMask c' = C.addrMask c.

(** Slot [i] holds no handle. *)
Definition cleared (c : C.t) (i : nat) : Prop :=
  forall e, C.tc c !! i = Some e -> trieHandle e = None.

(** The key both [insert] and [lookup] probe the index with:
    [maskVpn(legacyMask(vpn, la))]. *)
Definition deriveKey (c : C.t) (vpn : Addr) (la : LegacyAcc) : Outcome Addr :=
  v ← legacyMask (C.level c) vpn la; Ret (C.maskVpn c v).

(** A lower-level cache of two entries, fresh and after one insert. *)
Definition pde2 : C.t := PageStructureCache.newPDECache "pde" 2 0%Z.

(** [pde2] after the insert of address [0x400000] with payload 7. *)
Definition pde2_one : C.t :=
  Eval vm_compute in
    match C.insert pde2 0x400000%Z 7%Z NONE with
    | Ret (c, _) => c
    | Abort _ => pde2
    end.

(** An aggregate whose lower level holds one entry. *)
Definition psc_one : PageStructureCache.t :=
  PageStructureCache.mk
    (PageStructureCache.newPML4Cache "cpu.pml4Cache" 4 0%Z)
    (PageStructureCache.newPDPCache "cpu.pdpCache" 3 0%Z)
    pde2_one.

(** A full lower-level cache of two entries: slot 0 was stamped first. *)
Definition pde2_full : C.t :=
  Eval vm_compute in
    match C.insert pde2_one 0x800000%Z 9%Z NONE with
    | Ret (c, _) => c
    | Abort _ => pde2
    end.

(** The construction of a cache of each level. *)
Definition newLevel (lvl : Level) (name : string) (n : nat) (seq0 : Z) : C.t :=
  match lvl with
  | PML4Cache => PageStructureCache.newPML4Cache name n seq0
  | PDPCache => PageStructureCache.newPDPCache name n seq0
  | PDECache => PageStructureCache.newPDECache name n seq0
  end.

(** One public operation that returned. *)
Inductive step : C.t -> C.t -> Prop :=
  | step_insert c vpn p la c' s :
      C.insert c vpn p la = Ret (c', s) -> step c c'
  | step_lookup c va la u c' r :
      C.lookup c va la u = Ret (c', r) -> step c c'
  | step_flush c c' :
      C.flush c = Ret c' -> step c c'.

(** The states a cache goes through, from [c0] on. *)
Inductive reachable (c0 : C.t) : C.t -> Prop :=
  | reach_refl : reachable c0 c0
  | reach_step c c' : reachable c0 c -> step c c' -> reachable c0 c'.

(** The arguments of one [insert]: address, payload and mode. *)
Definition Request : Type := Addr * PageTableEntry * LegacyAcc.

(** The key a request derives. *)
Definition requestKey (c : C.t) (r : Request) : Outcome Addr :=
  deriveKey c r.1.1 r.2.

(** A sequence of inserts; the result lists the state after each. *)
Fixpoint insertAll (c : C.t) (reqs : list Request) : Outcome (list C.t) :=
  match reqs with
  | [] => Ret []
  | r :: reqs' =>
      cs' ← C.insert c r.1.1 r.1.2 r.2;
      cs ← insertAll cs'.1 reqs';
      Ret (cs'.1 :: cs)
  end.

(** The sources also hold an earlier draft of [translation_cache.cc]
    (no statistics, no aggregate).  Its [lookup] probes the index with
    [legacyMask(va, la)] as it is, without [maskVpn]. *)
Definition draftLookupKey (c : C.t) (va : Addr) (la : LegacyAcc) : Outcome Addr :=
  legacyMask (C.level c) va la.

(** ** Vocabulary of the further properties *)

(** The word with the bits [lo .. hi] set. *)
Definition fieldMask (lo hi : Z) : Z := Z.shiftl (Z.ones (hi - lo + 1)) lo.

(** The address bits [lo .. hi] that make up the key of a level under a
    mode, read off [legacyMask] and the constructor arguments of the
    level; [None] where [legacyMask] panics. *)
Definition keyRange (lvl : Level) (la : LegacyAcc) : option (Z * Z) :=
  match lvl, la with
  | PML4Cache, NONE => Some (39, 51)%Z
  | PML4Cache, _ => None
  | PDPCache, NONE => Some (30, 51)%Z
  | PDPCache, LEGACY_32b_PAE => Some (30, 31)%Z
  | PDPCache, LEGACY_32b_NO_PAE => None
  | PDECache, NONE => Some (21, 51)%Z
  | PDECache, LEGACY_32b_PAE => Some (21, 31)%Z
  | PDECache, LEGACY_32b_NO_PAE => Some (22, 31)%Z
  end.

(** Every occupied entry has its node in the index; a node's key has no
    bit outside its mask; no two nodes share key and mask. *)
Record Inv2 (c : C.t) : Prop := mkInv2 {
  inv2_node : forall s e h,
    C.tc c !! s = Some e -> trieHandle e = Some h ->
    exists n, n ∈ C.trie c /\ Trie.value n = s /\ Trie.handleOf n = h;
  inv2_norm : forall n, n ∈ C.trie c ->
    Z.land (Trie.key n) (Trie.nmask n) = Trie.key n;
  inv2_nodup : NoDup (Trie.handleOf <$> C.trie c)
}.

(** * Properties *)

(** ** Outcomes *)

Lemma bind_Ret {A B : Type} (m : Outcome A) (k : A -> Outcome B) (b : B) :
  (m ≫= k) = Ret b -> exists a, m = Ret a /\ k a = Ret b.
Proof.
  destruct m as [a|f]; simpl; intros H; [eauto | discriminate].
Qed.

(** ** Lists *)

Lemma length_filter_insert {A : Type} (P : A -> Prop)
    `{!forall x, Decision (P x)} (l : list A) (i : nat) (x e : A) :
  l !! i = Some e ->
  length (filter P (<[i:=x]> l)) + (if decide (P e) then 1 else 0)
  = length (filter P l) + (if decide (P x) then 1 else 0).
Proof.
  revert i. induction l as [|a l IH]; intros i Hi; [destruct i; discriminate|].
  destruct i as [|i]; simpl in *.
  - injection Hi as ->. rewrite !filter_cons.
    repeat case_decide; simpl; lia.
  - specialize (IH i Hi). rewrite !filter_cons.
    destruct (decide (P a)); simpl; lia.
Qed.

Lemma length_filter_all {A : Type} (P : A -> Prop)
    `{!forall x, Decision (P x)} (l : list A) :
  length (filter P l) = length l -> Forall P l.
Proof.
  induction l as [|a l IH]; intros Hlen; [constructor|].
  rewrite filter_cons in Hlen. pose proof (length_filter P l) as Hle.
  destruct (decide (P a)); simpl in Hlen.
  - constructor; [done | apply IH; lia].
  - lia.
Qed.

Lemma length_filter_none {A : Type} (P : A -> Prop)
    `{!forall x, Decision (P x)} (l : list A) :
  Forall (fun x => ~ P x) l -> length (filter P l) = 0.
Proof.
  induction 1 as [|a l Ha _ IH]; [done|].
  rewrite filter_cons. destruct (decide (P a)); [contradiction | exact IH].
Qed.

(** ** The prefix index *)

Lemma handle_eqb_eq (h1 h2 : Trie.Handle) :
  Trie.handle_eqb h1 h2 = true <-> h1 = h2.
Proof.
  destruct h1 as [k1 m1], h2 as [k2 m2]. unfold Trie.handle_eqb. simpl.
  rewrite andb_true_iff, !Z.eqb_eq. split.
  - intros [-> ->]. reflexivity.
  - intros [= -> ->]. done.
Qed.

Lemma trie_lookup_Some (tr : Trie.t) (k : Addr) (s : nat) :
  Trie.lookup tr k = Some s ->
  exists n, n ∈ tr /\ Trie.matches n k = true /\ Trie.value n = s.
Proof.
  unfold Trie.lookup. destruct (List.find _ tr) as [n|] eqn:Hf; [|discriminate].
  intros [= <-]. apply find_some in Hf as [Hin Hm].
  exists n. rewrite list_elem_of_In. done.
Qed.

Lemma trie_lookup_None (tr : Trie.t) (k : Addr) :
  Trie.lookup tr k = None <-> forall n, n ∈ tr -> Trie.matches n k = false.
Proof.
  unfold Trie.lookup. split.
  - destruct (List.find _ tr) as [n|] eqn:Hf; [discriminate|].
    intros _ n Hn. apply list_elem_of_In in Hn.
    exact (find_none _ _ Hf n Hn).
  - intros H. destruct (List.find _ tr) as [n|] eqn:Hf; [|done].
    apply find_some in Hf as [Hin Hm]. apply list_elem_of_In in Hin.
    rewrite (H n Hin) in Hm. discriminate.
Qed.

Lemma trie_elem_of_remove (tr : Trie.t) (h : Trie.Handle) (n : Trie.Node) :
  n ∈ Trie.remove tr h <-> n ∈ tr /\ Trie.handleOf n <> h.
Proof.
  unfold Trie.remove. rewrite !list_elem_of_In, filter_In, negb_true_iff.
  rewrite <- not_true_iff_false, handle_eqb_eq. done.
Qed.

(** ** The representation invariant of a per-level cache *)

Lemma Inv_set_stats (c : C.t) (st : TranslationCacheStats) :
  Inv c -> Inv (C.set_stats c st).
Proof. intros [? ? ? ? ? ?]. by constructor. Qed.

Lemma Inv_set_lruSeqCtr (c : C.t) (s : Z) :
  Inv c -> Inv (C.set_lruSeqCtr c s).
Proof. intros [? ? ? ? ? ?]. by constructor. Qed.

Lemma occupied_release (c : C.t) (i : nat) (e : TranslationCacheEntry)
    (h : Trie.Handle) :
  C.tc c !! i = Some e -> trieHandle e = Some h ->
  S (C.occupied (C.release c i e h)) = C.occupied c.
Proof.
  intros Hi Hh. unfold C.occupied, C.release. simpl.
  pose proof (length_filter_insert (fun e => is_Some (trieHandle e))
                (C.tc c) i (C.set_trieHandle e None) e Hi) as H.
  rewrite decide_True in H by (rewrite Hh; eauto).
  rewrite decide_False in H by (simpl; apply is_Some_None).
  lia.
Qed.

Lemma Inv_release (c : C.t) (i : nat) (e : TranslationCacheEntry)
    (h : Trie.Handle) :
  Inv c -> C.tc c !! i = Some e -> trieHandle e = Some h ->
  Inv (C.release c i e h).
Proof.
  intros HI Hi Hh. pose proof (occupied_release c i e h Hi Hh) as Hocc.
  destruct HI as [Hlen Hcfg Hnd Hfree Hcnt Hown].
  assert (Hnotin : i ∉ C.freeList c).
  { intros Hin. destruct (Hfree i Hin) as (e' & He' & Hnone). congruence. }
  constructor.
  - unfold C.release. simpl. by rewrite length_insert.
  - exact Hcfg.
  - unfold C.release. simpl. apply NoDup_app. split; [done|]. split.
    + intros x Hx Hx'. apply list_elem_of_singleton in Hx'. subst x. done.
    + apply NoDup_singleton.
  - unfold C.release. simpl. intros s Hs.
    apply elem_of_app in Hs as [Hs | Hs].
    + destruct (Hfree s Hs) as (e' & He' & Hnone). exists e'. split; [|done].
      rewrite list_lookup_insert_ne; [done|]. intros ->. done.
    + apply list_elem_of_singleton in Hs. subst s.
      exists (C.set_trieHandle e None). split; [|done].
      apply list_lookup_insert_eq. by eapply lookup_lt_Some.
  - change (C.size (C.release c i e h)) with (C.size c).
    change (C.freeList (C.release c i e h)) with (C.freeList c ++ [i]).
    rewrite length_app. simpl. lia.
  - unfold C.release. simpl. intros n Hn.
    apply trie_elem_of_remove in Hn as [Hn Hne].
    destruct (Hown n Hn) as (e' & He' & Hh' & Hk & Hm).
    exists e'. split; [|done].
    rewrite list_lookup_insert_ne; [done|]. intros ->. congruence.
Qed.

(** ** The eviction scan *)

Lemma scanLRU_spec (v : list TranslationCacheEntry) (n a lru : nat) :
  a + n <= length v -> firstMin v a lru ->
  exists r, C.scanLRU v (seq a n) lru = Ret r /\ firstMin v (a + n) r.
Proof.
  revert a lru. induction n as [|n IH]; intros a lru Hlen Hmin.
  - exists lru. rewrite Nat.add_0_r. done.
  - destruct Hmin as [Hlt Hmin].
    destruct (lookup_lt_is_Some_2 v a) as [ei Hei]; [lia|].
    destruct (lookup_lt_is_Some_2 v lru) as [el Hel]; [lia|].
    simpl. rewrite Hei, Hel.
    replace (a + S n) with (S a + n) by lia.
    apply IH; [lia|].
    assert (Ha : stampAt v a = lruSeq ei) by (unfold stampAt; by rewrite Hei).
    assert (Hl : stampAt v lru = lruSeq el) by (unfold stampAt; by rewrite Hel).
    destruct (Z.ltb_spec (lruSeq ei) (lruSeq el)) as [Hc | Hc].
    + split; [lia|]. intros j Hj.
      destruct (decide (j = a)) as [-> | Hne]; [lia|].
      destruct (Hmin j) as [H1 H2]; [lia|]. lia.
    + split; [lia|]. intros j Hj.
      destruct (decide (j = a)) as [-> | Hne]; [lia|].
      apply Hmin. lia.
Qed.

Lemma Inv_full (c : C.t) :
  Inv c -> C.freeList c = [] ->
  forall i e, C.tc c !! i = Some e -> is_Some (trieHandle e).
Proof.
  intros HI Hfl i e Hi. pose proof (inv_count c HI) as Hcnt.
  rewrite Hfl, <- (inv_len c HI) in Hcnt. simpl in Hcnt.
  apply length_filter_all in Hcnt.
  rewrite Forall_lookup in Hcnt. exact (Hcnt i e Hi).
Qed.

(** On a full pool with at least one slot [evictLRU] returns: it
    releases the first slot that holds the least stamp. *)
Lemma evictLRU_full (c : C.t) :
  Inv c -> C.freeList c = [] -> 0 < C.size c ->
  exists lru e h,
    firstMin (C.tc c) (C.size c) lru
    /\ C.tc c !! lru = Some e
    /\ trieHandle e = Some h
    /\ C.evictLRU c
       = Ret (C.set_stats (C.release c lru e h)
                (C.incr_evict (C.stats c))).
Proof.
  intros HI Hfl Hpos. pose proof (inv_len c HI) as Hlen.
  destruct (lookup_lt_is_Some_2 (C.tc c) 0) as [e0 He0]; [lia|].
  destruct (scanLRU_spec (C.tc c) (C.size c - 1) 1 0) as (lru & Hscan & Hmin).
  - lia.
  - split; [lia|]. intros j Hj. assert (j = 0) as -> by lia. lia.
  - replace (1 + (C.size c - 1)) with (C.size c) in Hmin by lia.
    destruct (lookup_lt_is_Some_2 (C.tc c) lru) as [e He]; [destruct Hmin; lia|].
    destruct (Inv_full c HI Hfl lru e He) as [h Hh].
    exists lru, e, h. split; [exact Hmin|]. do 2 (split; [done|]).
    unfold C.evictLRU. rewrite Hscan. simpl. rewrite He, Hh. reflexivity.
Qed.

(** ** The cases of [insert] *)

Lemma insert_hit (c : C.t) (vpn v : Addr) (p : PageTableEntry)
    (la : LegacyAcc) (s : nat) (e : TranslationCacheEntry) :
  legacyMask (C.level c) vpn la = Ret v ->
  Trie.lookup (C.trie c) (C.maskVpn c v) = Some s ->
  C.tc c !! s = Some e -> index e = C.maskVpn c v -> nextStepEntry e = p ->
  C.insert c vpn p la = Ret (c, s).
Proof.
  intros Hv Hl He Hi Hp. unfold C.insert. rewrite Hv. simpl.
  rewrite Hl, He, Hi, Hp, !Z.eqb_refl. reflexivity.
Qed.

Lemma insert_miss (c c1 : C.t) (vpn v : Addr) (p : PageTableEntry)
    (la : LegacyAcc) (s : nat) (rest : list nat) (e0 : TranslationCacheEntry) :
  legacyMask (C.level c) vpn la = Ret v ->
  Trie.lookup (C.trie c) (C.maskVpn c v) = None ->
  match C.freeList c with [] => C.evictLRU c | _ :: _ => Ret c end = Ret c1 ->
  C.freeList c1 = s :: rest -> C.tc c1 !! s = Some e0 ->
  C.insert c vpn p la = Ret (allocate c1 s rest (C.maskVpn c v) p, s).
Proof.
  intros Hv Hl Hc1 Hfl He0. unfold C.insert. rewrite Hv. simpl.
  rewrite Hl, Hc1. simpl. rewrite Hfl. simpl. rewrite He0. reflexivity.
Qed.

Lemma insert_inv (c c' : C.t) (vpn : Addr) (p : PageTableEntry)
    (la : LegacyAcc) (s : nat) :
  C.insert c vpn p la = Ret (c', s) ->
  exists v, legacyMask (C.level c) vpn la = Ret v /\
    ((Trie.lookup (C.trie c) (C.maskVpn c v) = Some s /\ c' = c /\
      exists e, C.tc c !! s = Some e /\ index e = C.maskVpn c v
                /\ nextStepEntry e = p)
     \/
     (Trie.lookup (C.trie c) (C.maskVpn c v) = None /\
      exists c1 rest e0,
        match C.freeList c with [] => C.evictLRU c | _ :: _ => Ret c end = Ret c1
        /\ C.freeList c1 = s :: rest /\ C.tc c1 !! s = Some e0
        /\ c' = allocate c1 s rest (C.maskVpn c v) p)).
Proof.
  unfold C.insert. intros H.
  apply bind_Ret in H as (v & Hv & H). exists v. split; [done|].
  destruct (Trie.lookup (C.trie c) (C.maskVpn c v)) as [s0|] eqn:Hl.
  - left. destruct (C.tc c !! s0) as [e|] eqn:He; [|discriminate].
    destruct (Z.eqb_spec (index e) (C.maskVpn c v)) as [Hi|]; [|discriminate].
    destruct (Z.eqb_spec (nextStepEntry e) p) as [Hp|]; [|discriminate].
    simpl in H. injection H as <- <-. eauto 10.
  - right. split; [done|].
    apply bind_Ret in H as (c1 & Hc1 & H).
    destruct (C.freeList c1) as [|s0 rest] eqn:Hfl; [discriminate|].
    simpl in H. destruct (C.tc c1 !! s0) as [e0|] eqn:He0; [|discriminate].
    injection H as <- <-. exists c1, rest, e0. done.
Qed.

Lemma evictLRU_inv (c c1 : C.t) :
  C.evictLRU c = Ret c1 ->
  exists lru e h,
    C.scanLRU (C.tc c) (seq 1 (C.size c - 1)) 0 = Ret lru
    /\ C.tc c !! lru = Some e /\ trieHandle e = Some h
    /\ c1 = C.set_stats (C.release c lru e h) (C.incr_evict (C.stats c)).
Proof.
  unfold C.evictLRU. intros H. apply bind_Ret in H as (lru & Hscan & H).
  destruct (C.tc c !! lru) as [e|] eqn:He; [|discriminate].
  destruct (trieHandle e) as [h|] eqn:Hh; [|discriminate].
  injection H as <-. exists lru, e, h. done.
Qed.

Lemma evictLRU_Inv (c c1 : C.t) :
  Inv c -> C.evictLRU c = Ret c1 -> Inv c1.
Proof.
  intros HI H. apply evictLRU_inv in H as (lru & e & h & _ & He & Hh & ->).
  apply Inv_set_stats, Inv_release; done.
Qed.

(** A key that [maskVpn] produced has no bit outside the mask of the
    index nodes. *)
Lemma widthMask_idxMaskBitsL (l : Z) :
  (0 <= l < 64)%Z -> Trie.widthMask (Trie.MaxBits - l) = shl64 ones64 l.
Proof.
  intros Hl. unfold Trie.widthMask, Trie.MaxBits.
  destruct (Z.ltb_spec (64 - l) 64) as [Hlt | Hge].
  - f_equal. lia.
  - assert (l = 0%Z) as -> by lia. reflexivity.
Qed.

Lemma maskVpn_indexMask (c : C.t) (v : Addr) :
  wellConfigured c -> Z.land (C.maskVpn c v) (indexMask c) = C.maskVpn c v.
Proof.
  intros [Hl Hm]. unfold indexMask, C.maskVpn, C.getIdxMaskBitsL.
  rewrite widthMask_idxMaskBitsL by done. rewrite Hm.
  set (a := shr64 ones64 _). set (m := shl64 ones64 _).
  rewrite <- (Z.land_assoc (Z.land a m) v m), (Z.land_comm v m).
  rewrite (Z.land_assoc (Z.land a m) m v).
  rewrite <- (Z.land_assoc a m m), Z.land_diag. reflexivity.
Qed.

Lemma Inv_allocate (c1 : C.t) (s : nat) (rest : list nat) (idx : Addr)
    (p : PageTableEntry) :
  Inv c1 -> C.freeList c1 = s :: rest -> Z.land idx (indexMask c1) = idx ->
  Inv (allocate c1 s rest idx p) /\
  C.occupied (allocate c1 s rest idx p) = S (C.occupied c1).
Proof.
  intros [Hlen Hcfg Hnd Hfree Hcnt Hown] Hfl Hidx.
  rewrite Hfl in Hnd, Hfree, Hcnt. apply NoDup_cons in Hnd as [Hs Hnd].
  destruct (Hfree s) as (e0 & He0 & Hnone); [left|].
  assert (Hocc : C.occupied (allocate c1 s rest idx p) = S (C.occupied c1)).
  { unfold C.occupied, allocate. simpl.
    match goal with |- context [<[s := ?x]> _] =>
      pose proof (length_filter_insert (fun e => is_Some (trieHandle e))
                    (C.tc c1) s x e0 He0) as H end.
    rewrite decide_False in H by (rewrite Hnone; apply is_Some_None).
    rewrite decide_True in H by (simpl; eauto). lia. }
  split; [|exact Hocc]. constructor.
  - unfold allocate. simpl. by rewrite length_insert.
  - exact Hcfg.
  - exact Hnd.
  - unfold allocate. simpl. intros x Hx.
    destruct (Hfree x) as (e & He & Hn); [by right|].
    exists e. split; [|done].
    rewrite list_lookup_insert_ne; [done|]. intros ->. done.
  - rewrite Hocc. change (C.freeList (allocate c1 s rest idx p)) with rest.
    change (C.size (allocate c1 s rest idx p)) with (C.size c1).
    simpl in Hcnt. lia.
  - unfold allocate. simpl. intros n Hn.
    apply elem_of_cons in Hn as [-> | Hn].
    + eexists. split.
      * simpl. apply list_lookup_insert_eq. by eapply lookup_lt_Some.
      * simpl. done.
    + destruct (Hown n Hn) as (e & He & Hh & Hk & Hm).
      exists e. split; [|done].
      rewrite list_lookup_insert_ne; [done|]. intros Heq.
      rewrite <- Heq in He. congruence.
Qed.

(** ** What no operation changes *)

Lemma sameConfig_refl (c : C.t) : sameConfig c c.
Proof. by repeat split. Qed.

Lemma sameConfig_trans (c1 c2 c3 : C.t) :
  sameConfig c1 c2 -> sameConfig c2 c3 -> sameConfig c1 c3.
Proof.
  unfold sameConfig. intros (? & ? & ? & ? & ?) (? & ? & ? & ? & ?).
  repeat split; congruence.
Qed.

Lemma sameConfig_indexMask (c c' : C.t) :
  sameConfig c c' -> indexMask c' = indexMask c.
Proof.
  intros (_ & _ & _ & Hl & _). unfold indexMask, C.getIdxMaskBitsL. by rewrite Hl.
Qed.

Lemma evictLRU_sameConfig (c c1 : C.t) :
  C.evictLRU c = Ret c1 -> sameConfig c c1.
Proof.
  intros H. apply evictLRU_inv in H as (lru & e & h & _ & _ & _ & ->).
  by repeat split.
Qed.

Lemma allocate_sameConfig (c1 : C.t) (s : nat) (rest : list nat)
    (idx : Addr) (p : PageTableEntry) :
  sameConfig c1 (allocate c1 s rest idx p).
Proof. by repeat split. Qed.

(** The slot that [insert] allocates from: the state itself when a slot
    is free, the state after an eviction otherwise. *)
Lemma insert_slot_source (c c1 : C.t) :
  Inv c ->
  match C.freeList c with [] => C.evictLRU c | _ :: _ => Ret c end = Ret c1 ->
  Inv c1 /\ sameConfig c c1
  /\ (forall n, n ∈ C.trie c1 -> n ∈ C.trie c)
  /\ ((C.freeList c <> [] /\ c1 = c)
      \/ (C.freeList c = [] /\ S (C.occupied c1) = C.occupied c
          /\ stat_evict (C.stats c1) = S (stat_evict (C.stats c)))).
Proof.
  intros HI H. destruct (C.freeList c) as [|s0 rest] eqn:Hfl.
  - split; [by eapply evictLRU_Inv|].
    split; [by apply evictLRU_sameConfig|].
    apply evictLRU_inv in H as (lru & e & h & _ & He & Hh & ->).
    split.
    + simpl. intros n Hn. by apply trie_elem_of_remove in Hn as [Hn _].
    + right. split; [done|]. split; [|done].
      apply (occupied_release c lru e h He Hh).
  - injection H as <-. split; [done|]. split; [apply sameConfig_refl|].
    split; [done|]. left. done.
Qed.

Theorem insert_Inv (c c' : C.t) (vpn : Addr) (p : PageTableEntry)
    (la : LegacyAcc) (s : nat) :
  Inv c -> C.insert c vpn p la = Ret (c', s) -> Inv c' /\ sameConfig c c'.
Proof.
  intros HI H. apply insert_inv in H as (v & Hv & [H | H]).
  - destruct H as (_ & -> & _). split; [done | apply sameConfig_refl].
  - destruct H as (Hl & c1 & rest & e0 & Hc1 & Hfl & He0 & ->).
    apply insert_slot_source in Hc1 as (HI1 & Hcfg & _ & _); [|done].
    split.
    + apply Inv_allocate; [done..|].
      rewrite (sameConfig_indexMask c c1 Hcfg).
      apply maskVpn_indexMask, (inv_cfg c HI).
    + eapply sameConfig_trans; [exact Hcfg | apply allocate_sameConfig].
Qed.

(** ** [lookup] *)

Lemma Inv_touch (c : C.t) (s : nat) (e : TranslationCacheEntry) (sq : Z) :
  Inv c -> C.tc c !! s = Some e ->
  Inv (C.set_tc c (<[s := C.set_lruSeq e sq]> (C.tc c)))
  /\ C.occupied (C.set_tc c (<[s := C.set_lruSeq e sq]> (C.tc c))) = C.occupied c.
Proof.
  intros [Hlen Hcfg Hnd Hfree Hcnt Hown] He.
  assert (Hs : s < length (C.tc c)) by (by eapply lookup_lt_Some).
  assert (Hocc : C.occupied (C.set_tc c (<[s := C.set_lruSeq e sq]> (C.tc c)))
                 = C.occupied c).
  { unfold C.occupied. simpl.
    pose proof (length_filter_insert (fun e => is_Some (trieHandle e))
                  (C.tc c) s (C.set_lruSeq e sq) e He) as H.
    simpl in H. destruct (decide (is_Some (trieHandle e))); lia. }
  split; [|exact Hocc]. constructor; simpl.
  - by rewrite length_insert.
  - exact Hcfg.
  - exact Hnd.
  - intros x Hx. destruct (Hfree x Hx) as (e' & He' & Hn).
    destruct (decide (x = s)) as [-> | Hne].
    + exists (C.set_lruSeq e sq). rewrite list_lookup_insert_eq by done.
      split; [done|]. simpl. congruence.
    + exists e'. by rewrite list_lookup_insert_ne.
  - rewrite Hocc. exact Hcnt.
  - intros n Hn. destruct (Hown n Hn) as (e' & He' & Hh & Hk & Hm).
    destruct (decide (Trie.value n = s)) as [Heq | Hne].
    + exists (C.set_lruSeq e sq). rewrite Heq, list_lookup_insert_eq by done.
      rewrite Heq in He'. assert (e' = e) as -> by congruence. done.
    + exists e'. by rewrite list_lookup_insert_ne.
Qed.

Lemma lookup_inv (c c' : C.t) (va : Addr) (la : LegacyAcc) (u : bool)
    (r : option nat) :
  C.lookup c va la u = Ret (c', r) ->
  exists v, legacyMask (C.level c) va la = Ret v
    /\ r = Trie.lookup (C.trie c) (C.maskVpn c v)
    /\ C.trie c' = C.trie c /\ C.freeList c' = C.freeList c
    /\ sameConfig c c'
    /\ (Inv c -> Inv c' /\ C.occupied c' = C.occupied c).
Proof.
  unfold C.lookup. intros H. apply bind_Ret in H as (v & Hv & H).
  exists v. split; [done|].
  destruct (Trie.lookup (C.trie c) (C.maskVpn c v)) as [s|] eqn:Hl.
  - destruct u.
    + simpl in H. destruct (C.tc c !! s) as [e|] eqn:He; [|discriminate].
      injection H as <- <-. do 4 (split; [done|]). intros HI.
      apply (Inv_touch
               (C.set_lruSeqCtr (C.set_stats c (C.incr_hit (C.stats c)))
                  (wrap64 (C.lruSeqCtr c + 1)))
               s e (wrap64 (C.lruSeqCtr c + 1))); [|done].
      apply Inv_set_lruSeqCtr, Inv_set_stats, HI.
    + injection H as <- <-. do 4 (split; [done|]). intros HI.
      split; [by apply Inv_set_stats | done].
  - injection H as <- <-. do 4 (split; [done|]). intros HI.
    split; [by apply Inv_set_stats | done].
Qed.

(** ** Construction *)

Lemma occupied_zero (c : C.t) :
  (forall i e, C.tc c !! i = Some e -> trieHandle e = None) ->
  C.occupied c = 0.
Proof.
  intros H. unfold C.occupied. apply length_filter_none.
  apply Forall_lookup. intros i e He [h Hh]. rewrite (H i e He) in Hh.
  discriminate.
Qed.

Theorem new_Inv (name : string) (lvl : Level) (n : nat) (h l seq0 : Z) :
  (0 <= l < 64)%Z -> Inv (C.new name lvl n h l seq0).
Proof.
  intros Hl.
  assert (Hfree : forall i e,
             C.tc (C.new name lvl n h l seq0) !! i = Some e ->
             trieHandle e = None).
  { simpl. intros i e He. apply lookup_replicate in He as [-> _]. done. }
  constructor; simpl.
  - apply length_replicate.
  - split; done.
  - apply NoDup_seq.
  - intros s Hs. apply elem_of_seq in Hs.
    exists (mkEntry 0%Z 0%Z 0%Z None). split; [|reflexivity].
    apply lookup_replicate_2. lia.
  - rewrite (occupied_zero _ Hfree), length_seq. simpl. lia.
  - intros nd Hnd. by apply elem_of_nil in Hnd.
Qed.

(** ** [flush] *)

Lemma flushSlot_spec (c : C.t) (i : nat) :
  Inv c -> i < C.size c ->
  exists c', C.flushSlot c i = Ret c' /\ Inv c' /\ sameConfig c c'
    /\ C.stats c' = C.stats c /\ C.lruSeqCtr c' = C.lruSeqCtr c
    /\ cleared c' i /\ (forall j, cleared c j -> cleared c' j).
Proof.
  intros HI Hi. unfold C.flushSlot.
  destruct (lookup_lt_is_Some_2 (C.tc c) i) as [e He];
    [by rewrite (inv_len c HI)|].
  rewrite He. destruct (trieHandle e) as [h|] eqn:Hh.
  - eexists. split; [reflexivity|].
    split; [by apply Inv_release|]. split; [by repeat split|].
    do 2 (split; [reflexivity|]).
    assert (Hlt : i < length (C.tc c)) by (by eapply lookup_lt_Some).
    unfold cleared. simpl. split.
    + intros e'. rewrite list_lookup_insert_eq by done. by intros [= <-].
    + intros j Hj e'. destruct (decide (j = i)) as [-> | Hne].
      * rewrite list_lookup_insert_eq by done. by intros [= <-].
      * rewrite list_lookup_insert_ne by done. apply Hj.
  - exists c. split; [reflexivity|]. split; [done|].
    split; [apply sameConfig_refl|]. do 2 (split; [reflexivity|]).
    split; [|done]. intros e' He'. congruence.
Qed.

Lemma flushLoop_spec (idxs : list nat) (c : C.t) :
  Inv c -> (forall i, i ∈ idxs -> i < C.size c) ->
  exists c', C.flushLoop c idxs = Ret c' /\ Inv c' /\ sameConfig c c'
    /\ C.stats c' = C.stats c /\ C.lruSeqCtr c' = C.lruSeqCtr c
    /\ (forall i, i ∈ idxs -> cleared c' i)
    /\ (forall j, cleared c j -> cleared c' j).
Proof.
  revert c. induction idxs as [|i idxs IH]; intros c HI Hlt.
  - exists c. split; [reflexivity|]. split; [done|].
    split; [apply sameConfig_refl|]. do 2 (split; [reflexivity|]).
    split; [|done]. intros i Hi. by apply elem_of_nil in Hi.
  - destruct (flushSlot_spec c i HI) as (c1 & H1 & HI1 & Hcfg1 & Hst1 & Hsq1 & Hc1 & Hm1).
    { apply Hlt. left. }
    destruct (IH c1 HI1) as (c' & H' & HI' & Hcfg' & Hst' & Hsq' & Hc' & Hm').
    { intros j Hj. destruct Hcfg1 as [-> _]. apply Hlt. by right. }
    exists c'. simpl. rewrite H1. simpl. split; [exact H'|].
    split; [done|]. split; [by eapply sameConfig_trans|].
    do 2 (split; [congruence|]). split.
    + intros j Hj. apply elem_of_cons in Hj as [-> | Hj]; [|by apply Hc'].
      by apply Hm'.
    + intros j Hj. by apply Hm', Hm1.
Qed.

(** A pass over slots that hold no handle changes nothing. *)
Lemma flushLoop_cleared (idxs : list nat) (c : C.t) :
  (forall i, i ∈ idxs -> i < length (C.tc c) /\ cleared c i) ->
  C.flushLoop c idxs = Ret c.
Proof.
  induction idxs as [|i idxs IH]; intros H; [reflexivity|].
  destruct (H i) as [Hlt Hc]; [left|].
  destruct (lookup_lt_is_Some_2 (C.tc c) i Hlt) as [e He].
  simpl. unfold C.flushSlot. rewrite He, (Hc e He). simpl.
  apply IH. intros j Hj. apply H. by right.
Qed.

(** An invariant state whose slots are all cleared has an empty index
    and a free list as long as the pool. *)
Lemma Inv_all_cleared (c : C.t) :
  Inv c -> (forall i, i < C.size c -> cleared c i) ->
  C.trie c = [] /\ length (C.freeList c) = C.size c /\ C.occupied c = 0.
Proof.
  intros HI Hc.
  assert (Hall : forall i e, C.tc c !! i = Some e -> trieHandle e = None).
  { intros i e He. apply (Hc i); [|done].
    rewrite <- (inv_len c HI). by eapply lookup_lt_Some. }
  split; [|split].
  - destruct (C.trie c) as [|n tr] eqn:Htr; [done|].
    destruct (inv_owner c HI n) as (e & He & Hh & _); [rewrite Htr; left|].
    rewrite (Hall _ _ He) in Hh. discriminate.
  - pose proof (inv_count c HI) as Hcnt.
    rewrite (occupied_zero c Hall) in Hcnt. lia.
  - exact (occupied_zero c Hall).
Qed.

(** [flush] returns on every invariant state; it leaves every slot
    cleared, the index empty and the free list as long as the pool, and
    counts one flush. *)
Theorem flush_spec (c : C.t) :
  Inv c ->
  exists c', C.flush c = Ret c' /\ Inv c' /\ sameConfig c c'
    /\ (forall i, i < C.size c' -> cleared c' i)
    /\ C.trie c' = [] /\ length (C.freeList c') = C.size c
    /\ C.occupied c' = 0
    /\ stat_flush (C.stats c') = S (stat_flush (C.stats c)).
Proof.
  intros HI.
  destruct (flushLoop_spec (seq 0 (C.size c)) c HI)
    as (c1 & H1 & HI1 & Hcfg & Hst & Hsq & Hc & _).
  { intros i Hi. apply elem_of_seq in Hi. lia. }
  exists (C.set_stats c1 (C.incr_flush (C.stats c1))).
  unfold C.flush. rewrite H1. split; [reflexivity|].
  assert (Hcl : forall i, i < C.size c1 -> cleared c1 i).
  { intros i Hi. apply Hc, elem_of_seq. destruct Hcfg as [Hsz _]. lia. }
  destruct (Inv_all_cleared c1 HI1 Hcl) as (Htr & Hfl & Hocc).
  split; [by apply Inv_set_stats|]. split; [exact Hcfg|].
  split; [exact Hcl|]. split; [exact Htr|].
  split; [destruct Hcfg as [Hsz _]; simpl; lia|].
  split; [exact Hocc|]. simpl. by rewrite Hst.
Qed.

(** ** Key derivation *)

Lemma legacyMask_supported (lvl : Level) (vpn : Addr) (la : LegacyAcc) :
  supported lvl la = true <-> exists v, legacyMask lvl vpn la = Ret v.
Proof.
  split.
  - destruct lvl, la; simpl; intros H; try discriminate; eauto.
  - intros [v Hv]. destruct lvl, la; simpl in *; done.
Qed.

Lemma deriveKey_Ret (c : C.t) (vpn idx : Addr) (la : LegacyAcc) :
  deriveKey c vpn la = Ret idx <->
  exists v, legacyMask (C.level c) vpn la = Ret v /\ idx = C.maskVpn c v.
Proof.
  unfold deriveKey. split.
  - intros H. apply bind_Ret in H as (v & Hv & [= <-]). eauto.
  - intros (v & -> & ->). reflexivity.
Qed.

Lemma deriveKey_sameConfig (c c' : C.t) (vpn : Addr) (la : LegacyAcc) :
  sameConfig c c' -> deriveKey c' vpn la = deriveKey c vpn la.
Proof.
  intros (_ & Hlvl & _ & _ & Hm). unfold deriveKey, C.maskVpn.
  by rewrite Hlvl, Hm.
Qed.

(** In an invariant state a node matches a derived key only if it is
    the key of the entry the node belongs to. *)
Lemma Inv_match_index (c : C.t) (v : Addr) (n : Trie.Node) :
  Inv c -> n ∈ C.trie c ->
  Trie.matches n (C.maskVpn c v) = true <-> Trie.key n = C.maskVpn c v.
Proof.
  intros HI Hn. destruct (inv_owner c HI n Hn) as (e & _ & _ & _ & Hm).
  unfold Trie.matches. rewrite Hm, maskVpn_indexMask by apply (inv_cfg c HI).
  rewrite Z.eqb_eq. split; congruence.
Qed.

(** [insert] returns on every invariant state with at least one slot,
    for every mode the level supports, unless the key is cached with a
    different payload. *)
Theorem insert_returns (c : C.t) (vpn : Addr) (p : PageTableEntry)
    (la : LegacyAcc) :
  Inv c -> 0 < C.size c -> supported (C.level c) la = true ->
  (forall idx s e, deriveKey c vpn la = Ret idx ->
     Trie.lookup (C.trie c) idx = Some s -> C.tc c !! s = Some e ->
     nextStepEntry e = p) ->
  exists c' s, C.insert c vpn p la = Ret (c', s).
Proof.
  intros HI Hpos Hsup Hpay.
  apply (legacyMask_supported _ vpn) in Hsup as [v Hv].
  destruct (Trie.lookup (C.trie c) (C.maskVpn c v)) as [s|] eqn:Hl.
  - destruct (trie_lookup_Some _ _ _ Hl) as (n & Hn & Hm & Hval).
    destruct (inv_owner c HI n Hn) as (e & He & _ & Hk & _).
    rewrite Hval in He. apply (Inv_match_index c v n HI Hn) in Hm.
    exists c, s. eapply insert_hit; try done; [congruence|].
    eapply Hpay; [|done..]. apply deriveKey_Ret. eauto.
  - destruct (C.freeList c) as [|s rest] eqn:Hfl.
    + destruct (evictLRU_full c HI Hfl Hpos) as (lru & e & h & Hmin & He & Hh & Hev).
      eexists _, lru. eapply (insert_miss c _ vpn v p la lru [] (C.set_trieHandle e None));
        try done.
      * rewrite Hfl. exact Hev.
      * simpl. by rewrite Hfl.
      * simpl. apply list_lookup_insert_eq. by eapply lookup_lt_Some.
    + destruct (inv_free c HI s) as (e0 & He0 & _); [rewrite Hfl; left|].
      eexists _, s. eapply (insert_miss c c vpn v p la s rest e0); try done.
      by rewrite Hfl.
Qed.

(** * The claims *)

(** ** Example states *)

Lemma pde2_Inv : Inv pde2.
Proof. apply new_Inv. lia. Defined.

Lemma pde2_insert : C.insert pde2 0x400000%Z 7%Z NONE = Ret (pde2_one, 0).
Proof. vm_compute. reflexivity. Defined.

Lemma pde2_one_Inv : Inv pde2_one.
Proof. exact (proj1 (insert_Inv _ _ _ _ _ _ pde2_Inv pde2_insert)). Defined.

(** ** C6: the top level under a legacy mode *)

(** C6. On the top-level (PML4) cache, [insert] and [lookup] under
    either legacy mode end in the [panic] of [legacyMask], whatever the
    address, the payload and the state: neither returns a value. *)
Theorem C6_pml4_legacy_aborts (c : C.t) (vpn : Addr) (p : PageTableEntry)
    (la : LegacyAcc) (u : bool) :
  C.level c = PML4Cache ->
  la = LEGACY_32b_PAE \/ la = LEGACY_32b_NO_PAE ->
  C.insert c vpn p la
    = Abort (Panic "PML4 cache should not be used in legacy mode")
  /\ C.lookup c vpn la u
    = Abort (Panic "PML4 cache should not be used in legacy mode")
  /\ ~ returns (C.insert c vpn p la) /\ ~ returns (C.lookup c vpn la u).
Proof.
  intros Hlvl Hla. unfold C.insert, C.lookup, returns. rewrite Hlvl.
  destruct Hla as [-> | ->]; simpl;
    (split; [reflexivity|]; split; [reflexivity|]; split; intros [a Ha]; discriminate).
Qed.

Lemma C6_witness :
  C.insert (PageStructureCache.newPML4Cache "pml4" 4 0%Z) 0x1000%Z 7%Z
      LEGACY_32b_PAE
    = Abort (Panic "PML4 cache should not be used in legacy mode")
  /\ C.lookup (PageStructureCache.newPML4Cache "pml4" 4 0%Z) 0x1000%Z
      LEGACY_32b_PAE true
    = Abort (Panic "PML4 cache should not be used in legacy mode")
  /\ ~ returns (C.insert (PageStructureCache.newPML4Cache "pml4" 4 0%Z)
                  0x1000%Z 7%Z LEGACY_32b_PAE)
  /\ ~ returns (C.lookup (PageStructureCache.newPML4Cache "pml4" 4 0%Z)
                  0x1000%Z LEGACY_32b_PAE true).
Proof.
  apply (C6_pml4_legacy_aborts
           (PageStructureCache.newPML4Cache "pml4" 4 0%Z) 0x1000%Z 7%Z
           LEGACY_32b_PAE true); [reflexivity | left; reflexivity].
Defined.

(** ** C10: the flush counter *)

Lemma occupied_zero_cleared (c : C.t) :
  C.occupied c = 0 -> forall i, cleared c i.
Proof.
  unfold C.occupied, cleared. intros H i e He.
  apply nil_length_inv in H.
  destruct (trieHandle e) as [h|] eqn:Hh; [|done].
  assert (Hin : e ∈ filter (fun e => is_Some (trieHandle e)) (C.tc c)).
  { apply list_elem_of_filter. split; [rewrite Hh; eauto|].
    by eapply list_elem_of_lookup_2. }
  rewrite H in Hin. by apply elem_of_nil in Hin.
Qed.

(** C10. [flush] on a cache with no occupied entry returns the same
    state but for the flush counter, which it increments: the pool, the
    index and the free list are as before, and the call is counted. *)
Theorem C10_flush_empty_counts (c : C.t) :
  length (C.tc c) = C.size c -> C.occupied c = 0 ->
  C.flush c = Ret (C.set_stats c (C.incr_flush (C.stats c)))
  /\ forall c', C.flush c = Ret c' ->
       C.tc c' = C.tc c /\ C.trie c' = C.trie c
       /\ C.freeList c' = C.freeList c
       /\ stat_flush (C.stats c') = S (stat_flush (C.stats c)).
Proof.
  intros Hlen Hocc.
  assert (H : C.flush c = Ret (C.set_stats c (C.incr_flush (C.stats c)))).
  { unfold C.flush. rewrite flushLoop_cleared; [reflexivity|].
    intros i Hi. apply elem_of_seq in Hi. split; [lia|].
    by apply occupied_zero_cleared. }
  split; [exact H|]. intros c' Hc'. rewrite H in Hc'. injection Hc' as <-.
  done.
Qed.

Lemma C10_witness :
  C.flush pde2 = Ret (C.set_stats pde2 (C.incr_flush (C.stats pde2)))
  /\ forall c', C.flush pde2 = Ret c' ->
       C.tc c' = C.tc pde2 /\ C.trie c' = C.trie pde2
       /\ C.freeList c' = C.freeList pde2
       /\ stat_flush (C.stats c') = S (stat_flush (C.stats pde2)).
Proof.
  apply (C10_flush_empty_counts pde2); reflexivity.
Defined.

(** ** C5: flush completeness *)

(** C5. On every invariant state [flush] returns; afterwards the free
    list is as long as the capacity, [lookup] misses for every address
    under every supported mode (so for every key inserted before), and a
    second [flush] leaves the pool, the index and the free list as they
    are. *)
Theorem C5_flush_complete (c : C.t) :
  Inv c ->
  exists c', C.flush c = Ret c'
    /\ length (C.freeList c') = C.size c
    /\ (forall va la u, supported (C.level c) la = true ->
          exists c'', C.lookup c' va la u = Ret (c'', None))
    /\ (exists c'', C.flush c' = Ret c''
          /\ C.tc c'' = C.tc c' /\ C.trie c'' = C.trie c'
          /\ C.freeList c'' = C.freeList c').
Proof.
  intros HI.
  destruct (flush_spec c HI)
    as (c' & Hf & HI' & Hcfg & Hcl & Htr & Hfl & Hocc & _).
  exists c'. split; [exact Hf|]. split; [exact Hfl|]. split.
  - intros va la u Hsup. destruct Hcfg as (_ & Hlvl & _).
    apply (legacyMask_supported _ va) in Hsup as [v Hv].
    unfold C.lookup. rewrite Hlvl, Hv, Htr. simpl. eauto.
  - exists (C.set_stats c' (C.incr_flush (C.stats c'))).
    split; [|done]. unfold C.flush. rewrite flushLoop_cleared; [reflexivity|].
    intros i Hi. apply elem_of_seq in Hi.
    rewrite (inv_len c' HI'). split; [lia|]. apply Hcl. lia.
Qed.

Lemma C5_witness :
  exists c', C.flush pde2_one = Ret c'
    /\ length (C.freeList c') = C.size pde2_one
    /\ (forall va la u, supported (C.level pde2_one) la = true ->
          exists c'', C.lookup c' va la u = Ret (c'', None))
    /\ (exists c'', C.flush c' = Ret c''
          /\ C.tc c'' = C.tc c' /\ C.trie c'' = C.trie c'
          /\ C.freeList c'' = C.freeList c').
Proof. exact (C5_flush_complete pde2_one pde2_one_Inv). Defined.

(** ** C9: the aggregate flush *)

(** C9. [PageStructureCache::flush] returns the three levels, each as
    its own [flush] leaves it: all three are flushed in the one call,
    and afterwards the free list of every level is as long as that
    level's capacity. *)
Theorem C9_flush_all_levels (p : PageStructureCache.t) :
  Inv (PageStructureCache.pml4Cache p) ->
  Inv (PageStructureCache.pdpCache p) ->
  Inv (PageStructureCache.pdeCache p) ->
  exists c1 c2 c3,
    PageStructureCache.flush p = Ret (PageStructureCache.mk c1 c2 c3)
    /\ C.flush (PageStructureCache.pml4Cache p) = Ret c1
    /\ C.flush (PageStructureCache.pdpCache p) = Ret c2
    /\ C.flush (PageStructureCache.pdeCache p) = Ret c3
    /\ length (C.freeList c1) = C.size (PageStructureCache.pml4Cache p)
    /\ length (C.freeList c2) = C.size (PageStructureCache.pdpCache p)
    /\ length (C.freeList c3) = C.size (PageStructureCache.pdeCache p)
    /\ C.occupied c1 = 0 /\ C.occupied c2 = 0 /\ C.occupied c3 = 0.
Proof.
  intros H1 H2 H3.
  destruct (flush_spec _ H1) as (c1 & Hf1 & _ & _ & _ & _ & Hl1 & Ho1 & _).
  destruct (flush_spec _ H2) as (c2 & Hf2 & _ & _ & _ & _ & Hl2 & Ho2 & _).
  destruct (flush_spec _ H3) as (c3 & Hf3 & _ & _ & _ & _ & Hl3 & Ho3 & _).
  exists c1, c2, c3. unfold PageStructureCache.flush.
  rewrite Hf1, Hf2, Hf3. done.
Qed.

Lemma C9_witness :
  exists c1 c2 c3,
    PageStructureCache.flush psc_one = Ret (PageStructureCache.mk c1 c2 c3)
    /\ C.flush (PageStructureCache.pml4Cache psc_one) = Ret c1
    /\ C.flush (PageStructureCache.pdpCache psc_one) = Ret c2
    /\ C.flush (PageStructureCache.pdeCache psc_one) = Ret c3
    /\ length (C.freeList c1) = C.size (PageStructureCache.pml4Cache psc_one)
    /\ length (C.freeList c2) = C.size (PageStructureCache.pdpCache psc_one)
    /\ length (C.freeList c3) = C.size (PageStructureCache.pdeCache psc_one)
    /\ C.occupied c1 = 0 /\ C.occupied c2 = 0 /\ C.occupied c3 = 0.
Proof.
  apply (C9_flush_all_levels psc_one).
  - apply new_Inv. lia.
  - apply new_Inv. lia.
  - exact pde2_one_Inv.
Defined.

(** ** C7 and C2: [lookup] and [insert] after [insert] *)

Lemma insert_source_sameConfig (c c1 : C.t) :
  match C.freeList c with [] => C.evictLRU c | _ :: _ => Ret c end = Ret c1 ->
  sameConfig c c1.
Proof.
  destruct (C.freeList c); intros H.
  - by apply evictLRU_sameConfig.
  - injection H as <-. apply sameConfig_refl.
Qed.

(** What [insert] leaves behind: the returned slot is indexed under the
    derived key and holds the key and the payload. *)
Lemma insert_post (c c' : C.t) (vpn : Addr) (p : PageTableEntry)
    (la : LegacyAcc) (s : nat) :
  C.insert c vpn p la = Ret (c', s) ->
  sameConfig c c' /\
  exists idx e, deriveKey c vpn la = Ret idx
    /\ Trie.lookup (C.trie c') idx = Some s
    /\ C.tc c' !! s = Some e /\ index e = idx /\ nextStepEntry e = p.
Proof.
  intros H. apply insert_inv in H as (v & Hv & [H | H]).
  - destruct H as (Hl & -> & e & He & Hi & Hp).
    split; [apply sameConfig_refl|]. exists (C.maskVpn c v), e.
    split; [apply deriveKey_Ret; eauto | done].
  - destruct H as (Hl & c1 & rest & e0 & Hc1 & Hfl & He0 & ->).
    apply insert_source_sameConfig in Hc1.
    split; [eapply sameConfig_trans; [done | apply allocate_sameConfig]|].
    eexists (C.maskVpn c v), _.
    split; [apply deriveKey_Ret; eauto|]. split; [|split].
    + unfold allocate. simpl. unfold Trie.lookup, Trie.matches. simpl.
      by rewrite Z.eqb_refl.
    + unfold allocate. simpl. apply list_lookup_insert_eq.
      by eapply lookup_lt_Some.
    + done.
Qed.

(** The draft's probe differs from the key [insert] registers wherever
    the address has a bit outside [addrMask]. *)
Lemma draftLookupKey_differs :
  draftLookupKey pde2 0x400123%Z NONE <> deriveKey pde2 0x400123%Z NONE.
Proof. vm_compute. discriminate. Qed.

(** C7. [lookup] probes the index with the key [insert] registered
    under, [maskVpn(legacyMask(a, mode))], so whenever [insert] returned
    an entry, [lookup] of the same address and mode right after it
    returns a hit on that entry, with or without the recency update. *)
Theorem C7_lookup_after_insert (c c' : C.t) (vpn : Addr)
    (p : PageTableEntry) (la : LegacyAcc) (s : nat) (u : bool) :
  C.insert c vpn p la = Ret (c', s) ->
  exists idx c'',
    deriveKey c vpn la = Ret idx /\ deriveKey c' vpn la = Ret idx
    /\ Trie.lookup (C.trie c') idx = Some s
    /\ C.lookup c' vpn la u = Ret (c'', Some s).
Proof.
  intros H. apply insert_post in H as (Hcfg & idx & e & Hk & Hl & He & _).
  pose proof (deriveKey_sameConfig c c' vpn la Hcfg) as Hk'.
  rewrite Hk in Hk'. apply deriveKey_Ret in Hk' as (v & Hv & ->).
  exists (C.maskVpn c' v). unfold C.lookup. rewrite Hv. simpl. rewrite Hl.
  destruct u; simpl; [rewrite He|]; eexists; (split; [done|]);
    (split; [apply deriveKey_Ret; eauto | done]).
Qed.

Lemma C7_witness :
  exists idx c'',
    deriveKey pde2 0x400000%Z NONE = Ret idx
    /\ deriveKey pde2_one 0x400000%Z NONE = Ret idx
    /\ Trie.lookup (C.trie pde2_one) idx = Some 0
    /\ C.lookup pde2_one 0x400000%Z NONE true = Ret (c'', Some 0).
Proof.
  exact (C7_lookup_after_insert pde2 pde2_one 0x400000%Z 7%Z NONE 0 true
           pde2_insert).
Defined.

(** C2. When [insert] has returned an entry, a second [insert] of the
    same payload under an address and mode that derive the same key
    returns the same entry and the same state: the entry with its
    recency stamp, the number of occupied entries and the free list are
    untouched. *)
Theorem C2_insert_idempotent (c c1 : C.t) (vpn vpn2 : Addr)
    (p : PageTableEntry) (la la2 : LegacyAcc) (s : nat) :
  C.insert c vpn p la = Ret (c1, s) ->
  deriveKey c vpn2 la2 = deriveKey c vpn la ->
  C.insert c1 vpn2 p la2 = Ret (c1, s)
  /\ forall c2 s2, C.insert c1 vpn2 p la2 = Ret (c2, s2) ->
       s2 = s /\ C.tc c2 !! s = C.tc c1 !! s
       /\ C.occupied c2 = C.occupied c1
       /\ C.freeList c2 = C.freeList c1.
Proof.
  intros H Hkey.
  apply insert_post in H as (Hcfg & idx & e & Hk & Hl & He & Hi & Hp).
  rewrite Hk, <- (deriveKey_sameConfig c c1 vpn2 la2 Hcfg) in Hkey.
  apply deriveKey_Ret in Hkey as (v2 & Hv2 & ->).
  assert (Hins : C.insert c1 vpn2 p la2 = Ret (c1, s))
    by (by eapply insert_hit).
  split; [exact Hins|]. intros c2 s2 H2. rewrite Hins in H2.
  injection H2 as <- <-. done.
Qed.

Lemma C2_witness :
  C.insert pde2_one 0x400123%Z 7%Z NONE = Ret (pde2_one, 0)
  /\ forall c2 s2, C.insert pde2_one 0x400123%Z 7%Z NONE = Ret (c2, s2) ->
       s2 = 0 /\ C.tc c2 !! 0 = C.tc pde2_one !! 0
       /\ C.occupied c2 = C.occupied pde2_one
       /\ C.freeList c2 = C.freeList pde2_one.
Proof.
  apply (C2_insert_idempotent pde2 pde2_one 0x400000%Z 0x400123%Z 7%Z
           NONE NONE 0 pde2_insert).
  vm_compute. reflexivity.
Defined.

(** ** C4: what eviction removes *)

(** C4. On an invariant state with an empty free list and at least one
    occupied entry, [evictLRU] returns.  The slot [lru] it frees is
    occupied, holds the least recency stamp of the whole pool, and is
    the lowest slot that does; its node is removed from the index, so
    that no probe finds the slot any more; its handle is cleared, the
    other slots are left alone, and the slot is pushed onto the free
    list; one eviction is counted. *)
Theorem C4_evictLRU_least_recent (c : C.t) :
  Inv c -> C.freeList c = [] -> 0 < C.occupied c ->
  exists c' lru e h,
    C.evictLRU c = Ret c'
    /\ C.tc c !! lru = Some e /\ trieHandle e = Some h
    /\ (forall j ej, C.tc c !! j = Some ej ->
          (lruSeq e <= lruSeq ej)%Z /\ (j < lru -> (lruSeq e < lruSeq ej)%Z))
    /\ C.trie c' = Trie.remove (C.trie c) h
    /\ (forall k, Trie.lookup (C.trie c') k <> Some lru)
    /\ C.tc c' = <[lru := C.set_trieHandle e None]> (C.tc c)
    /\ C.freeList c' = [lru]
    /\ S (C.occupied c') = C.occupied c
    /\ stat_evict (C.stats c') = S (stat_evict (C.stats c)).
Proof.
  intros HI Hfl Hocc.
  assert (Hpos : 0 < C.size c).
  { pose proof (inv_count c HI) as Hcnt. rewrite Hfl in Hcnt. simpl in Hcnt. lia. }
  destruct (evictLRU_full c HI Hfl Hpos) as (lru & e & h & Hmin & He & Hh & Hev).
  eexists _, lru, e, h. split; [exact Hev|]. do 2 (split; [done|]).
  split; [|split; [reflexivity|]; split; [|split; [reflexivity|]; split]].
  - intros j ej Hj. destruct Hmin as [_ Hmin].
    assert (Hlt : j < C.size c).
    { rewrite <- (inv_len c HI). by eapply lookup_lt_Some. }
    specialize (Hmin j Hlt). unfold stampAt in Hmin.
    rewrite He, Hj in Hmin. exact Hmin.
  - simpl. intros k Hk.
    apply trie_lookup_Some in Hk as (n & Hn & _ & Hval).
    apply trie_elem_of_remove in Hn as [Hn Hne].
    destruct (inv_owner c HI n Hn) as (e' & He' & Hh' & _).
    rewrite Hval in He'. congruence.
  - simpl. by rewrite Hfl.
  - split; [|reflexivity]. apply (occupied_release c lru e h He Hh).
Qed.

Lemma pde2_full_insert :
  C.insert pde2_one 0x800000%Z 9%Z NONE = Ret (pde2_full, 1).
Proof. vm_compute. reflexivity. Defined.

Lemma pde2_full_Inv : Inv pde2_full.
Proof. exact (proj1 (insert_Inv _ _ _ _ _ _ pde2_one_Inv pde2_full_insert)). Defined.

Lemma C4_witness :
  exists c' lru e h,
    C.evictLRU pde2_full = Ret c'
    /\ C.tc pde2_full !! lru = Some e /\ trieHandle e = Some h
    /\ (forall j ej, C.tc pde2_full !! j = Some ej ->
          (lruSeq e <= lruSeq ej)%Z /\ (j < lru -> (lruSeq e < lruSeq ej)%Z))
    /\ C.trie c' = Trie.remove (C.trie pde2_full) h
    /\ (forall k, Trie.lookup (C.trie c') k <> Some lru)
    /\ C.tc c' = <[lru := C.set_trieHandle e None]> (C.tc pde2_full)
    /\ C.freeList c' = [lru]
    /\ S (C.occupied c') = C.occupied pde2_full
    /\ stat_evict (C.stats c') = S (stat_evict (C.stats pde2_full)).
Proof.
  apply (C4_evictLRU_least_recent pde2_full pde2_full_Inv).
  - reflexivity.
  - vm_compute. lia.
Defined.

(** ** C8: free list and occupied entries make up the pool *)

Lemma newLevel_Inv (lvl : Level) (name : string) (n : nat) (seq0 : Z) :
  Inv (newLevel lvl name n seq0).
Proof. destruct lvl; apply new_Inv; lia. Qed.

Lemma step_Inv (c c' : C.t) :
  Inv c -> step c c' -> Inv c' /\ sameConfig c c'.
Proof.
  intros HI Hs. destruct Hs as [c vpn p la c' s H | c va la u c' r H | c c' H].
  - by eapply insert_Inv.
  - apply lookup_inv in H as (v & _ & _ & _ & _ & Hcfg & HI').
    split; [by apply HI' | done].
  - destruct (flush_spec c HI) as (c1 & Hf & HI1 & Hcfg & _).
    rewrite Hf in H. injection H as <-. done.
Qed.

Lemma reachable_Inv (c0 c : C.t) :
  Inv c0 -> reachable c0 c -> Inv c /\ sameConfig c0 c.
Proof.
  intros HI0. induction 1 as [|c c' _ [HI Hcfg] Hs].
  - split; [done | apply sameConfig_refl].
  - destruct (step_Inv c c' HI Hs) as [HI' Hcfg'].
    split; [done | by eapply sameConfig_trans].
Qed.

(** C8. A cache of capacity [N] of any level satisfies
    [|free list| + |occupied| = N] when constructed, and every [insert],
    [lookup] and [flush] that returns leads to a state that satisfies it
    again: it holds in every state the cache goes through. *)
Theorem C8_free_plus_occupied (lvl : Level) (name : string) (N : nat)
    (seq0 : Z) (c : C.t) :
  reachable (newLevel lvl name N seq0) c ->
  C.size c = N /\ length (C.freeList c) + C.occupied c = N.
Proof.
  intros Hr.
  destruct (reachable_Inv _ c (newLevel_Inv lvl name N seq0) Hr)
    as [HI (Hsz & _)].
  assert (HN : C.size c = N) by (rewrite Hsz; by destruct lvl).
  split; [exact HN|]. rewrite <- HN. apply (inv_count c HI).
Qed.

Lemma C8_witness :
  C.size pde2_full = 2 /\ length (C.freeList pde2_full) + C.occupied pde2_full = 2.
Proof.
  apply (C8_free_plus_occupied PDECache "pde" 2 0%Z pde2_full).
  eapply reach_step; [eapply reach_step; [apply reach_refl|]|].
  - exact (step_insert _ _ _ _ _ _ pde2_insert).
  - exact (step_insert _ _ _ _ _ _ pde2_full_insert).
Defined.

(** ** C3: the capacity bound *)

Lemma last_cons_default {A : Type} (a d : A) (l : list A) :
  List.last (a :: l) d = List.last l a.
Proof.
  revert a d. induction l as [|b l IH]; intros a d; [reflexivity|].
  change (List.last (a :: b :: l) d) with (List.last (b :: l) d).
  by rewrite !(IH b).
Qed.

(** An insert of a key that no node of the index carries takes a free
    slot, or evicts once when there is none. *)
Lemma insert_fresh (c : C.t) (r : Request) :
  Inv c -> 0 < C.size c -> supported (C.level c) r.2 = true ->
  (forall n, n ∈ C.trie c -> requestKey c r <> Ret (Trie.key n)) ->
  exists c' s idx,
    C.insert c r.1.1 r.1.2 r.2 = Ret (c', s)
    /\ Inv c' /\ sameConfig c c'
    /\ requestKey c r = Ret idx
    /\ (forall n, n ∈ C.trie c' -> Trie.key n = idx \/ n ∈ C.trie c)
    /\ ((C.occupied c < C.size c /\ C.occupied c' = S (C.occupied c)
         /\ stat_evict (C.stats c') = stat_evict (C.stats c))
        \/ (C.occupied c = C.size c /\ C.occupied c' = C.occupied c
            /\ stat_evict (C.stats c') = S (stat_evict (C.stats c)))).
Proof.
  destruct r as [[vpn p] la]. unfold requestKey. simpl.
  intros HI Hpos Hsup Hfresh.
  destruct (proj1 (legacyMask_supported _ vpn _) Hsup) as [v Hv].
  assert (Hk : deriveKey c vpn la = Ret (C.maskVpn c v))
    by (apply deriveKey_Ret; eauto).
  assert (Hl : Trie.lookup (C.trie c) (C.maskVpn c v) = None).
  { apply trie_lookup_None. intros n Hn.
    apply not_true_is_false. intros Hm.
    apply (Inv_match_index c v n HI Hn) in Hm.
    apply (Hfresh n Hn). rewrite Hk. by rewrite Hm. }
  destruct (insert_returns c vpn p la HI Hpos Hsup) as (c' & s & Hins).
  { intros idx s e Hidx Hs. rewrite Hk in Hidx. injection Hidx as <-.
    rewrite Hl in Hs. discriminate. }
  exists c', s, (C.maskVpn c v). split; [exact Hins|].
  destruct (insert_Inv c c' vpn p la s HI Hins) as [HI' Hcfg].
  do 3 (split; [done|]).
  apply insert_inv in Hins as (v' & Hv' & [H | H]).
  { destruct H as (Hl' & _). rewrite Hv in Hv'. injection Hv' as <-. congruence. }
  rewrite Hv in Hv'. injection Hv' as <-.
  destruct H as (_ & c1 & rest & e0 & Hc1 & Hfl & He0 & ->).
  destruct (insert_slot_source c c1 HI Hc1) as (HI1 & Hcfg1 & Hsub & Hcase).
  destruct (Inv_allocate c1 s rest (C.maskVpn c v) p HI1 Hfl) as [_ Hocc].
  { rewrite (sameConfig_indexMask c c1 Hcfg1).
    apply maskVpn_indexMask, (inv_cfg c HI). }
  split.
  - unfold allocate. simpl. intros n Hn.
    apply elem_of_cons in Hn as [-> | Hn]; [left | right; by apply Hsub].
    simpl. change (Trie.widthMask _) with (indexMask c1).
    rewrite (sameConfig_indexMask c c1 Hcfg1).
    apply maskVpn_indexMask, (inv_cfg c HI).
  - pose proof (inv_count c HI) as Hcnt.
    destruct Hcase as [(Hne & ->) | (Hnil & Ho & Hev)].
    + left. split; [|split; [exact Hocc | reflexivity]].
      destruct (C.freeList c); [done | simpl in Hcnt; lia].
    + right. rewrite Hnil in Hcnt. simpl in Hcnt.
      split; [lia|]. split; [lia | exact Hev].
Qed.

(** From any invariant state: inserting requests whose keys are new
    and pairwise distinct fills the pool first and evicts once per
    insert afterwards. *)
Lemma insertAll_spec (reqs : list Request) (c : C.t) :
  Inv c -> 0 < C.size c ->
  (forall r, r ∈ reqs -> supported (C.level c) r.2 = true) ->
  NoDup (requestKey c <$> reqs) ->
  (forall n r, n ∈ C.trie c -> r ∈ reqs -> requestKey c r <> Ret (Trie.key n)) ->
  exists cs,
    insertAll c reqs = Ret cs
    /\ length cs = length reqs
    /\ Forall (fun c' => Inv c' /\ sameConfig c c') cs
    /\ C.occupied (List.last cs c)
       = Nat.min (C.occupied c + length reqs) (C.size c)
    /\ stat_evict (C.stats (List.last cs c))
       = stat_evict (C.stats c) + (C.occupied c + length reqs - C.size c).
Proof.
  revert c. induction reqs as [|r reqs IH]; intros c HI Hpos Hsup Hnd Hfresh.
  - exists []. pose proof (inv_count c HI). simpl.
    split; [done|]. split; [done|]. split; [constructor|]. lia.
  - rewrite fmap_cons in Hnd. apply NoDup_cons in Hnd as [Hnotin Hnd].
    destruct (insert_fresh c r HI Hpos) as
      (c' & s & idx & Hins & HI' & Hcfg & Hk & Htrie & Hcase).
    { apply Hsup. left. }
    { intros n Hn. apply Hfresh; [done | left]. }
    assert (Hkeys : forall r', requestKey c' r' = requestKey c r').
    { intros r'. by apply deriveKey_sameConfig. }
    destruct (IH c' HI') as (cs & Hall & Hlen & Hfa & Hocc & Hev).
    { destruct Hcfg as [-> _]. done. }
    { intros r' Hr'. destruct Hcfg as (_ & -> & _). apply Hsup. by right. }
    { erewrite list_fmap_ext; [exact Hnd|]. intros ? r' _. apply Hkeys. }
    { intros n r' Hn Hr'. rewrite Hkeys.
      destruct (Htrie n Hn) as [-> | Hn'].
      - intros Heq. apply Hnotin. rewrite Hk, <- Heq.
        by apply list_elem_of_fmap_2.
      - apply Hfresh; [done | by right]. }
    exists (c' :: cs).
    split; [simpl; rewrite Hins; simpl; by rewrite Hall|].
    split; [simpl; by rewrite Hlen|]. split.
    + constructor; [done|]. eapply Forall_impl; [exact Hfa|].
      intros c'' [? ?]. split; [done | by eapply sameConfig_trans].
    + rewrite last_cons_default, Hocc, Hev. cbn [length].
      destruct Hcfg as [-> _].
      destruct Hcase as [(? & -> & ->) | (? & -> & ->)]; lia.
Qed.

(** C3. Take a cache of capacity [N >= 1] of any level (the spec's
    standing assumption: eviction needs a slot to evict) in a state
    with no occupied entry, as constructed or as a flush leaves it, and
    [N + k] requests of pairwise distinct keys, each under a mode the
    level supports.  Every insert returns; after each of them the number
    of occupied entries is at most [N]; at the end the pool is full and
    exactly [k] evictions have been counted. *)
Theorem C3_capacity_bound (lvl : Level) (name : string) (N k : nat)
    (seq0 : Z) (c : C.t) (reqs : list Request) :
  0 < N ->
  reachable (newLevel lvl name N seq0) c -> C.occupied c = 0 ->
  (forall r, r ∈ reqs -> supported lvl r.2 = true) ->
  NoDup (requestKey c <$> reqs) ->
  length reqs = N + k ->
  exists cs,
    insertAll c reqs = Ret cs
    /\ length cs = N + k
    /\ Forall (fun c' => C.occupied c' <= N) cs
    /\ C.occupied (List.last cs c) = N
    /\ stat_evict (C.stats (List.last cs c)) = stat_evict (C.stats c) + k.
Proof.
  intros HN Hr Hocc0 Hsup Hnd Hlen.
  destruct (reachable_Inv _ c (newLevel_Inv lvl name N seq0) Hr)
    as [HI (Hsz & Hlvl & _)].
  assert (HszN : C.size c = N) by (rewrite Hsz; by destruct lvl).
  assert (HlvlN : C.level c = lvl) by (rewrite Hlvl; by destruct lvl).
  destruct (Inv_all_cleared c HI) as (Htr & _).
  { intros i _. by apply occupied_zero_cleared. }
  destruct (insertAll_spec reqs c) as (cs & Hall & Hl & Hfa & Hocc & Hev).
  - exact HI.
  - lia.
  - by rewrite HlvlN.
  - exact Hnd.
  - intros n r Hn. rewrite Htr in Hn. by apply elem_of_nil in Hn.
  - exists cs. split; [exact Hall|]. split; [lia|]. split; [|split].
    + eapply Forall_impl; [exact Hfa|]. intros c' [HI' (Hs & _)].
      pose proof (inv_count c' HI'). lia.
    + rewrite Hocc. lia.
    + rewrite Hev. lia.
Qed.

Lemma C3_witness :
  exists cs,
    insertAll pde2
      [(0x200000%Z, 1%Z, NONE); (0x400000%Z, 2%Z, LEGACY_32b_PAE);
       (0x600000%Z, 3%Z, NONE)] = Ret cs
    /\ length cs = 2 + 1
    /\ Forall (fun c' => C.occupied c' <= 2) cs
    /\ C.occupied (List.last cs pde2) = 2
    /\ stat_evict (C.stats (List.last cs pde2)) = stat_evict (C.stats pde2) + 1.
Proof.
  apply (C3_capacity_bound PDECache "pde" 2 1 0%Z pde2).
  - lia.
  - apply reach_refl.
  - reflexivity.
  - intros [[vpn p] la] _. by destruct la.
  - vm_compute.
    repeat (apply NoDup_cons; split;
            [rewrite ?elem_of_cons, elem_of_nil; intros H;
             repeat (destruct H as [H|H]; [discriminate H|]); exact H |]).
    apply NoDup_nil. done.
  - reflexivity.
Defined.

(** A cache of capacity 0 cannot insert: the free list is empty and
    [evictLRU] reads [tc[0]] of an empty pool. *)
Lemma insert_capacity_zero (lvl : Level) (name : string) (seq0 : Z)
    (vpn : Addr) (p : PageTableEntry) :
  C.insert (newLevel lvl name 0 seq0) vpn p NONE = Abort OutOfBounds.
Proof. by destruct lvl. Qed.

(** ** C1: the two legacy modes of the lower level *)

(** At capacity 2 and payload 7, against the claim as first stated:
    under the basic legacy mode the two addresses do not derive two keys
    and the two inserts do not occupy two entries; under the extended
    legacy mode they do not derive one key and the second insert does
    not return the first entry. *)
Lemma C1_counterexample :
  ~ (deriveKey pde2 0x00000000%Z LEGACY_32b_NO_PAE
     <> deriveKey pde2 0x00200000%Z LEGACY_32b_NO_PAE)
  /\ ~ (exists c1 e1 c2 e2,
        C.insert pde2 0x00000000%Z 7%Z LEGACY_32b_NO_PAE = Ret (c1, e1)
        /\ C.insert c1 0x00200000%Z 7%Z LEGACY_32b_NO_PAE = Ret (c2, e2)
        /\ C.occupied c2 = 2)
  /\ ~ (deriveKey pde2 0x00000000%Z LEGACY_32b_PAE
       = deriveKey pde2 0x00200000%Z LEGACY_32b_PAE)
  /\ ~ (exists c1 e1 c2 e2,
        C.insert pde2 0x00000000%Z 7%Z LEGACY_32b_PAE = Ret (c1, e1)
        /\ C.insert c1 0x00200000%Z 7%Z LEGACY_32b_PAE = Ret (c2, e2)
        /\ e2 = e1).
Proof.
  split; [|split; [|split]].
  - intros Hk. apply Hk. vm_compute. reflexivity.
  - intros (c1 & e1 & c2 & e2 & H1 & H2 & Hocc).
    vm_compute in H1. injection H1 as <- <-.
    vm_compute in H2. injection H2 as <- <-.
    vm_compute in Hocc. discriminate.
  - vm_compute. discriminate.
  - intros (c1 & e1 & c2 & e2 & H1 & H2 & He).
    vm_compute in H1. injection H1 as <- <-.
    vm_compute in H2. injection H2 as <- <-.
    discriminate.
Qed.

Lemma new_occupied (name : string) (lvl : Level) (n : nat) (h l seq0 : Z) :
  C.occupied (C.new name lvl n h l seq0) = 0.
Proof.
  apply occupied_zero. simpl. intros i e He.
  apply lookup_replicate in He as [-> _]. done.
Qed.

(** The first insert into a fresh lower-level cache with a slot. *)
Lemma pde_first_insert (name : string) (n : nat) (seq0 : Z) (vpn v : Addr)
    (p : PageTableEntry) (la : LegacyAcc) :
  legacyMask PDECache vpn la = Ret v ->
  let c0 := PageStructureCache.newPDECache name (S n) seq0 in
  let c1 := allocate c0 0 (seq 1 n) (C.maskVpn c0 v) p in
  C.insert c0 vpn p la = Ret (c1, 0)
  /\ Inv c1 /\ C.occupied c1 = 1 /\ C.freeList c1 = seq 1 n
  /\ C.trie c1 = [Trie.mkNode (C.maskVpn c0 v) (indexMask c0) 0].
Proof.
  intros Hv c0 c1.
  assert (HI0 : Inv c0) by (apply new_Inv; lia).
  assert (Hins : C.insert c0 vpn p la = Ret (c1, 0)).
  { apply (insert_miss c0 c0 vpn v p la 0 (seq 1 n) (mkEntry 0%Z 0%Z 0%Z None));
      done. }
  destruct (Inv_allocate c0 0 (seq 1 n) (C.maskVpn c0 v) p HI0) as [HI1 Hocc];
    [done | apply maskVpn_indexMask, (inv_cfg c0 HI0) |].
  split; [exact Hins|]. split; [exact HI1|]. split; [|split; [reflexivity|]].
  - fold c1 in Hocc. rewrite Hocc. f_equal. apply new_occupied.
  - unfold c1, allocate. simpl. f_equal. f_equal.
    apply (maskVpn_indexMask c0 v (inv_cfg c0 HI0)).
Qed.

(** C1, as the code has it.  On a fresh lower-level (PDE) cache of
    capacity at least 2: under the basic legacy mode
    ([LEGACY_32b_NO_PAE], bits 31:22) the addresses [0x00000000] and
    [0x00200000] derive one key, the second insert of the same payload
    returns the first entry and leaves the state, with its one occupied
    entry, unchanged; under the extended legacy mode ([LEGACY_32b_PAE],
    bits 31:21) they derive two distinct keys and the two inserts occupy
    two distinct entries. *)
Theorem C1_mode_dependent_collision (name : string) (N : nat) (seq0 : Z)
    (p1 p2 : PageTableEntry) :
  2 <= N ->
  let c0 := PageStructureCache.newPDECache name N seq0 in
  (deriveKey c0 0x00000000%Z LEGACY_32b_NO_PAE
   = deriveKey c0 0x00200000%Z LEGACY_32b_NO_PAE
   /\ exists c1 e1,
        C.insert c0 0x00000000%Z p1 LEGACY_32b_NO_PAE = Ret (c1, e1)
        /\ C.insert c1 0x00200000%Z p1 LEGACY_32b_NO_PAE = Ret (c1, e1)
        /\ C.occupied c1 = 1)
  /\
  (deriveKey c0 0x00000000%Z LEGACY_32b_PAE
   <> deriveKey c0 0x00200000%Z LEGACY_32b_PAE
   /\ exists c1 e1 c2 e2,
        C.insert c0 0x00000000%Z p1 LEGACY_32b_PAE = Ret (c1, e1)
        /\ C.insert c1 0x00200000%Z p2 LEGACY_32b_PAE = Ret (c2, e2)
        /\ e1 <> e2 /\ C.occupied c2 = 2).
Proof.
  intros HN. destruct N as [|[|n]]; [lia..|]. intros c0. split.
  - split; [vm_compute; reflexivity|].
    destruct (pde_first_insert name (S n) seq0 0%Z 0%Z p1 LEGACY_32b_NO_PAE)
      as (Hins & HI1 & Hocc & Hfl & Htr); [reflexivity|].
    eexists _, 0. split; [exact Hins|]. split; [|exact Hocc].
    apply insert_post in Hins as (Hcfg & idx & e & Hk & Hl & He & Hi & Hp).
    injection Hk as <-.
    eapply (insert_hit _ 0x00200000%Z 0%Z); [reflexivity | exact Hl | exact He | exact Hi | exact Hp].
  - split; [vm_compute; discriminate|].
    destruct (pde_first_insert name (S n) seq0 0%Z 0%Z p1 LEGACY_32b_PAE)
      as (Hins & HI1 & Hocc & Hfl & Htr); [reflexivity|].
    match type of Hins with _ = Ret (?c, _) => set (c1 := c) in * end.
    set (c2 := allocate c1 1 (seq 2 n) (C.maskVpn c1 0x200000%Z) p2).
    assert (Hins2 : C.insert c1 0x00200000%Z p2 LEGACY_32b_PAE = Ret (c2, 1)).
    { apply (insert_miss c1 c1 0x00200000%Z 0x200000%Z p2 LEGACY_32b_PAE 1
               (seq 2 n) (mkEntry 0%Z 0%Z 0%Z None)).
      - reflexivity.
      - rewrite Htr. vm_compute. reflexivity.
      - by rewrite Hfl.
      - exact Hfl.
      - reflexivity. }
    exists c1, 0, c2, 1. split; [exact Hins|]. split; [exact Hins2|].
    split; [lia|].
    destruct (Inv_allocate c1 1 (seq 2 n) (C.maskVpn c1 0x200000%Z) p2 HI1 Hfl)
      as [_ Hocc2]; [apply maskVpn_indexMask, (inv_cfg c1 HI1)|].
    fold c2 in Hocc2. rewrite Hocc2, Hocc. reflexivity.
Qed.

Lemma C1_witness :
  let c0 := PageStructureCache.newPDECache "pde" 2 0%Z in
  (deriveKey c0 0x00000000%Z LEGACY_32b_NO_PAE
   = deriveKey c0 0x00200000%Z LEGACY_32b_NO_PAE
   /\ exists c1 e1,
        C.insert c0 0x00000000%Z 7%Z LEGACY_32b_NO_PAE = Ret (c1, e1)
        /\ C.insert c1 0x00200000%Z 7%Z LEGACY_32b_NO_PAE = Ret (c1, e1)
        /\ C.occupied c1 = 1)
  /\
  (deriveKey c0 0x00000000%Z LEGACY_32b_PAE
   <> deriveKey c0 0x00200000%Z LEGACY_32b_PAE
   /\ exists c1 e1 c2 e2,
        C.insert c0 0x00000000%Z 7%Z LEGACY_32b_PAE = Ret (c1, e1)
        /\ C.insert c1 0x00200000%Z 8%Z LEGACY_32b_PAE = Ret (c2, e2)
        /\ e1 <> e2 /\ C.occupied c2 = 2).
Proof.
  apply (C1_mode_dependent_collision "pde" 2 0%Z 7%Z 8%Z). lia.
Defined.

(** * Further properties of the code *)

(** ** The bits of an address that make up its key *)

Lemma testbit_fieldMask (lo hi i : Z) :
  (0 <= lo)%Z -> (lo <= hi)%Z ->
  Z.testbit (fieldMask lo hi) i = ((lo <=? i)%Z && (i <=? hi)%Z)%bool.
Proof.
  intros Hlo Hhi. unfold fieldMask.
  destruct (Z.ltb_spec i 0) as [Hneg | Hpos].
  - rewrite Z.testbit_neg_r by done. symmetry.
    apply andb_false_intro1. apply Z.leb_gt. lia.
  - rewrite Z.shiftl_spec, Z.testbit_ones by lia.
    destruct (Z.leb_spec lo i), (Z.leb_spec 0 (i - lo)),
      (Z.ltb_spec (i - lo) (hi - lo + 1)), (Z.leb_spec i hi); simpl; lia.
Qed.

Lemma land_fieldMask_eq (a b lo hi : Z) :
  (0 <= lo)%Z -> (lo <= hi)%Z ->
  Z.land a (fieldMask lo hi) = Z.land b (fieldMask lo hi) <->
  forall i, (lo <= i <= hi)%Z -> Z.testbit a i = Z.testbit b i.
Proof.
  intros Hlo Hhi. split.
  - intros Heq i Hi.
    assert (H : Z.testbit (Z.land a (fieldMask lo hi)) i
                = Z.testbit (Z.land b (fieldMask lo hi)) i) by (by rewrite Heq).
    rewrite !Z.land_spec, testbit_fieldMask in H by done.
    destruct (Z.leb_spec lo i); [|lia]. destruct (Z.leb_spec i hi); [|lia].
    simpl in H. by rewrite !andb_true_r in H.
  - intros Hbits. apply Z.bits_inj'. intros i _.
    rewrite !Z.land_spec, testbit_fieldMask by done.
    destruct (Z.leb_spec lo i); [|by rewrite !andb_false_r].
    destruct (Z.leb_spec i hi); [|by rewrite !andb_false_r].
    by rewrite Hbits by lia.
Qed.

Lemma keyRange_supported (lvl : Level) (la : LegacyAcc) :
  is_Some (keyRange lvl la) <-> supported lvl la = true.
Proof.
  destruct lvl, la; simpl; split; intros H; try done; try by eexists.
  all: by destruct H.
Qed.

Lemma keyRange_bounds (lvl : Level) (la : LegacyAcc) (lo hi : Z) :
  keyRange lvl la = Some (lo, hi) -> (0 <= lo)%Z /\ (lo <= hi)%Z /\ (hi < 64)%Z.
Proof. destruct lvl, la; simpl; intros [= <- <-]; lia. Qed.

(** The configuration a level's constructor fixes. *)
Lemma newLevel_level (lvl : Level) (name : string) (n : nat) (seq0 : Z) :
  C.level (newLevel lvl name n seq0) = lvl.
Proof. by destruct lvl. Qed.

Lemma newLevel_addrMask (lvl : Level) (name : string) (n : nat) (seq0 : Z) :
  C.addrMask (newLevel lvl name n seq0)
  = fieldMask (match lvl with
               | PML4Cache => 39 | PDPCache => 30 | PDECache => 21
               end) 51.
Proof. destruct lvl; vm_compute; reflexivity. Qed.

(** [mbits] keeps the bits [first:last] in place and clears the others. *)
Lemma mbits_fieldMask (v first last : Z) :
  (0 <= last)%Z -> (last <= first)%Z -> (first < 63)%Z ->
  mbits v first last = Z.land v (fieldMask last first).
Proof.
  intros Hl Hf H63. unfold mbits. f_equal. apply Z.bits_inj'. intros i Hi.
  rewrite Z.land_spec, testbit_fieldMask by done.
  unfold not64, mask, ones64.
  destruct (Z.leb_spec 64 (first + 1)); [lia|].
  destruct (Z.leb_spec 64 last); [lia|].
  change (Z.shiftl 1 (first + 1) - 1)%Z with (Z.ones (first + 1)).
  change (Z.shiftl 1 last - 1)%Z with (Z.ones last).
  change (2 ^ 64 - 1)%Z with (Z.ones 64).
  rewrite Z.lxor_spec, !Z.testbit_ones_nonneg by lia.
  destruct (Z.ltb_spec i (first + 1)), (Z.ltb_spec i last),
    (Z.ltb_spec i 64), (Z.leb_spec last i), (Z.leb_spec i first);
    simpl; try reflexivity; lia.
Qed.

(** The key of a freshly configured level: the address with the bits
    outside the level's field cleared. *)
Lemma deriveKey_config (lvl : Level) (name : string) (n : nat) (seq0 : Z)
    (c : C.t) (vpn : Addr) (la : LegacyAcc) :
  sameConfig (newLevel lvl name n seq0) c ->
  match keyRange lvl la with
  | Some (lo, hi) => deriveKey c vpn la = Ret (Z.land vpn (fieldMask lo hi))
  | None => exists msg, deriveKey c vpn la = Abort (Panic msg)
  end.
Proof.
  intros (_ & Hlvl & _ & _ & Hm). unfold deriveKey, C.maskVpn.
  rewrite Hlvl, Hm, newLevel_level, newLevel_addrMask.
  destruct lvl, la; unfold legacyMask, keyRange;
    try (by eexists);
    rewrite ?mbits_fieldMask by lia;
    unfold mbind, Outcome_bind; cbv beta iota;
    rewrite Z.land_comm, <- ?Z.land_assoc; (do 2 f_equal);
    vm_compute; reflexivity.
Qed.

(** X1. In every state of a cache of any level, the key that [insert]
    and [lookup] derive from an address under a supported mode is the
    address with all bits cleared but those of the level's field: bits
    51:39, 51:30 and 51:21 for the three levels in 64-bit mode, bits
    31:30 and 31:21 under PAE, bits 31:22 for the lower level without
    PAE.  Under the other modes the derivation panics. *)
Theorem X1_deriveKey_field (lvl : Level) (name : string) (n : nat)
    (seq0 : Z) (c : C.t) (vpn : Addr) (la : LegacyAcc) :
  reachable (newLevel lvl name n seq0) c ->
  match keyRange lvl la with
  | Some (lo, hi) => deriveKey c vpn la = Ret (Z.land vpn (fieldMask lo hi))
  | None => exists msg, deriveKey c vpn la = Abort (Panic msg)
  end.
Proof.
  intros Hr. apply (deriveKey_config lvl name n seq0).
  exact (proj2 (reachable_Inv _ c (newLevel_Inv lvl name n seq0) Hr)).
Qed.

Lemma X1_witness :
  deriveKey pde2_full 0xFFFF800012345678%Z LEGACY_32b_PAE
  = Ret (Z.land 0xFFFF800012345678%Z (fieldMask 21 31)).
Proof.
  apply (X1_deriveKey_field PDECache "pde" 2 0%Z pde2_full
           0xFFFF800012345678%Z LEGACY_32b_PAE).
  eapply reach_step; [eapply reach_step; [apply reach_refl|]|].
  - exact (step_insert _ _ _ _ _ _ pde2_insert).
  - exact (step_insert _ _ _ _ _ _ pde2_full_insert).
Defined.

(** X2. Two addresses derive the same key under a supported mode
    exactly when they agree on every bit of the level's field: the page
    offset, the lower table indices and the bits above the field never
    tell two keys apart. *)
Theorem X2_key_collision (lvl : Level) (name : string) (n : nat)
    (seq0 : Z) (c : C.t) (a b : Addr) (la : LegacyAcc) (lo hi : Z) :
  reachable (newLevel lvl name n seq0) c ->
  keyRange lvl la = Some (lo, hi) ->
  deriveKey c a la = deriveKey c b la <->
  forall i, (lo <= i <= hi)%Z -> Z.testbit a i = Z.testbit b i.
Proof.
  intros Hr Hk.
  pose proof (proj2 (reachable_Inv _ c (newLevel_Inv lvl name n seq0) Hr)) as Hcfg.
  pose proof (deriveKey_config lvl name n seq0 c a la Hcfg) as Ha.
  pose proof (deriveKey_config lvl name n seq0 c b la Hcfg) as Hb.
  rewrite Hk in Ha, Hb. rewrite Ha, Hb.
  destruct (keyRange_bounds lvl la lo hi Hk) as (Hlo & Hhi & _).
  rewrite <- (land_fieldMask_eq a b lo hi) by done.
  split; [by intros [= ->] | by intros ->].
Qed.

Lemma X2_witness :
  deriveKey pde2 0x00000000%Z LEGACY_32b_NO_PAE
  = deriveKey pde2 0x00200000%Z LEGACY_32b_NO_PAE <->
  forall i, (22 <= i <= 31)%Z ->
    Z.testbit 0x00000000%Z i = Z.testbit 0x00200000%Z i.
Proof.
  apply (X2_key_collision PDECache "pde" 2 0%Z pde2 0x00000000%Z
           0x00200000%Z LEGACY_32b_NO_PAE 22%Z 31%Z).
  - apply reach_refl.
  - reflexivity.
Defined.

(** ** Entries and index nodes correspond one to one *)

Lemma NoDup_fmap_inj_on {A B : Type} (f : A -> B) (l : list A) (x y : A) :
  NoDup (f <$> l) -> x ∈ l -> y ∈ l -> f x = f y -> x = y.
Proof.
  induction l as [|a l IH]; intros Hnd Hx Hy Hf; [by apply elem_of_nil in Hx|].
  rewrite fmap_cons in Hnd. apply NoDup_cons in Hnd as [Ha Hnd].
  apply elem_of_cons in Hx as [-> | Hx]; apply elem_of_cons in Hy as [-> | Hy].
  - reflexivity.
  - exfalso. apply Ha. rewrite Hf. by apply list_elem_of_fmap_2.
  - exfalso. apply Ha. rewrite <- Hf. by apply list_elem_of_fmap_2.
  - by apply IH.
Qed.

Lemma NoDup_fmap_filter {A B : Type} (f : A -> B) (P : A -> bool) (l : list A) :
  NoDup (f <$> l) -> NoDup (f <$> List.filter P l).
Proof.
  induction l as [|a l IH]; intros Hnd; [done|].
  rewrite fmap_cons in Hnd. apply NoDup_cons in Hnd as [Ha Hnd].
  simpl. destruct (P a); [|by apply IH].
  rewrite fmap_cons. apply NoDup_cons. split; [|by apply IH].
  intros Hin. apply Ha. apply list_elem_of_fmap in Hin as (x & -> & Hx).
  apply list_elem_of_fmap_2. apply list_elem_of_In in Hx.
  apply filter_In in Hx as [Hx _]. by apply list_elem_of_In.
Qed.

Lemma find_filter {A : Type} (P Q : A -> bool) (l : list A) (x : A) :
  List.find P l = Some x -> Q x = true ->
  List.find P (List.filter Q l) = Some x.
Proof.
  induction l as [|a l IH]; intros Hf Hq; [discriminate|].
  simpl in Hf. destruct (P a) eqn:Hp.
  - injection Hf as ->. simpl. rewrite Hq. simpl. by rewrite Hp.
  - simpl. destruct (Q a); [simpl; rewrite Hp|]; by apply IH.
Qed.

Lemma Inv2_set_stats (c : C.t) (st : TranslationCacheStats) :
  Inv2 c -> Inv2 (C.set_stats c st).
Proof. intros [? ? ?]. by constructor. Qed.

Lemma Inv2_set_lruSeqCtr (c : C.t) (s : Z) :
  Inv2 c -> Inv2 (C.set_lruSeqCtr c s).
Proof. intros [? ? ?]. by constructor. Qed.

Lemma Inv2_release (c : C.t) (i : nat) (e : TranslationCacheEntry)
    (h : Trie.Handle) :
  Inv2 c -> C.tc c !! i = Some e -> trieHandle e = Some h ->
  Inv2 (C.release c i e h).
Proof.
  intros [Hnode Hnorm Hnd] Hi Hh.
  assert (Hlt : i < length (C.tc c)) by (by eapply lookup_lt_Some).
  constructor; unfold C.release; simpl.
  - intros s e' h' He' Hh'.
    destruct (decide (s = i)) as [-> | Hne].
    { rewrite list_lookup_insert_eq in He' by done.
      injection He' as <-. discriminate. }
    rewrite list_lookup_insert_ne in He' by done.
    destruct (Hnode s e' h' He' Hh') as (n & Hn & Hv & Hho).
    exists n. split; [|done]. apply trie_elem_of_remove. split; [done|].
    intros Heq. destruct (Hnode i e h Hi Hh) as (n' & Hn' & Hv' & Hho').
    assert (n = n') as -> by (eapply (NoDup_fmap_inj_on Trie.handleOf); [done..|congruence]).
    congruence.
  - intros n Hn. apply trie_elem_of_remove in Hn as [Hn _]. by apply Hnorm.
  - by apply NoDup_fmap_filter.
Qed.

Lemma Inv2_allocate (c1 : C.t) (s : nat) (rest : list nat) (idx : Addr)
    (p : PageTableEntry) :
  Inv c1 -> Inv2 c1 -> C.freeList c1 = s :: rest ->
  Trie.lookup (C.trie c1) idx = None ->
  Inv2 (allocate c1 s rest idx p).
Proof.
  intros HI [Hnode Hnorm Hnd] Hfl Hmiss.
  destruct (inv_free c1 HI s) as (e0 & He0 & Hnone); [rewrite Hfl; left|].
  assert (Hlt : s < length (C.tc c1)) by (by eapply lookup_lt_Some).
  constructor; unfold allocate; simpl.
  - intros s' e' h' He' Hh'.
    destruct (decide (s' = s)) as [-> | Hne].
    + rewrite list_lookup_insert_eq in He' by done. injection He' as <-.
      simpl in Hh'. injection Hh' as <-.
      eexists. split; [left|]. done.
    + rewrite list_lookup_insert_ne in He' by done.
      destruct (Hnode s' e' h' He' Hh') as (n & Hn & Hv & Hho).
      exists n. split; [by right | done].
  - intros n Hn. apply elem_of_cons in Hn as [-> | Hn]; [|by apply Hnorm].
    simpl. by rewrite <- Z.land_assoc, Z.land_diag.
  - apply NoDup_cons. split; [|done].
    intros Hin. apply list_elem_of_fmap in Hin as (n & Hho & Hn).
    assert (Hm : Trie.matches n idx = true).
    { unfold Trie.handleOf in Hho. simpl in Hho. injection Hho as Hk Hmk.
      unfold Trie.matches. rewrite <- Hmk, <- Hk. apply Z.eqb_refl. }
    rewrite (proj1 (trie_lookup_None _ _) Hmiss n Hn) in Hm. discriminate.
Qed.

Lemma Inv2_touch (c : C.t) (s : nat) (e : TranslationCacheEntry) (sq : Z) :
  Inv2 c -> C.tc c !! s = Some e ->
  Inv2 (C.set_tc c (<[s := C.set_lruSeq e sq]> (C.tc c))).
Proof.
  intros [Hnode Hnorm Hnd] He.
  assert (Hlt : s < length (C.tc c)) by (by eapply lookup_lt_Some).
  constructor; simpl; [|done..].
  intros s' e' h' He' Hh'. destruct (decide (s' = s)) as [-> | Hne].
  - rewrite list_lookup_insert_eq in He' by done. injection He' as <-.
    by apply (Hnode s e h').
  - rewrite list_lookup_insert_ne in He' by done. by apply (Hnode s' e' h').
Qed.

Lemma Inv2_all_cleared (c : C.t) :
  C.trie c = [] -> (forall i, cleared c i) -> Inv2 c.
Proof.
  intros Htr Hcl. constructor; rewrite ?Htr.
  - intros s e h He Hh. rewrite (Hcl s e He) in Hh. discriminate.
  - intros n Hn. by apply elem_of_nil in Hn.
  - apply NoDup_nil. done.
Qed.

Lemma newLevel_Inv2 (lvl : Level) (name : string) (n : nat) (seq0 : Z) :
  Inv2 (newLevel lvl name n seq0).
Proof.
  apply Inv2_all_cleared; [by destruct lvl|].
  intros i e He. destruct lvl; simpl in He;
    apply lookup_replicate in He as [-> _]; done.
Qed.

Lemma trie_lookup_subset (tr tr' : Trie.t) (k : Addr) :
  (forall n, n ∈ tr' -> n ∈ tr) ->
  Trie.lookup tr k = None -> Trie.lookup tr' k = None.
Proof.
  intros Hsub Hn. apply trie_lookup_None. intros n Hin.
  apply (proj1 (trie_lookup_None _ _) Hn). by apply Hsub.
Qed.

Lemma insert_slot_source_Inv2 (c c1 : C.t) :
  Inv2 c ->
  match C.freeList c with [] => C.evictLRU c | _ :: _ => Ret c end = Ret c1 ->
  Inv2 c1.
Proof.
  intros HI2 H. destruct (C.freeList c).
  - apply evictLRU_inv in H as (lru & e & h & _ & He & Hh & ->).
    by apply Inv2_set_stats, Inv2_release.
  - by injection H as <-.
Qed.

Lemma insert_Inv2 (c c' : C.t) (vpn : Addr) (p : PageTableEntry)
    (la : LegacyAcc) (s : nat) :
  Inv c -> Inv2 c -> C.insert c vpn p la = Ret (c', s) -> Inv2 c'.
Proof.
  intros HI HI2 H. apply insert_inv in H as (v & Hv & [H | H]).
  - by destruct H as (_ & -> & _).
  - destruct H as (Hl & c1 & rest & e0 & Hc1 & Hfl & He0 & ->).
    pose proof (insert_slot_source_Inv2 c c1 HI2 Hc1) as HI21.
    apply insert_slot_source in Hc1 as (HI1 & Hcfg & Hsub & _); [|done].
    apply Inv2_allocate; try done.
    by apply (trie_lookup_subset (C.trie c)).
Qed.

Lemma lookup_Inv2 (c c' : C.t) (va : Addr) (la : LegacyAcc) (u : bool)
    (r : option nat) :
  Inv2 c -> C.lookup c va la u = Ret (c', r) -> Inv2 c'.
Proof.
  unfold C.lookup. intros HI2 H. apply bind_Ret in H as (v & Hv & H).
  destruct (Trie.lookup (C.trie c) (C.maskVpn c v)) as [s|].
  - destruct u.
    + simpl in H. destruct (C.tc c !! s) as [e|] eqn:He; [|discriminate].
      injection H as <- <-.
      apply (Inv2_touch
               (C.set_lruSeqCtr (C.set_stats c (C.incr_hit (C.stats c)))
                  (wrap64 (C.lruSeqCtr c + 1)))
               s e (wrap64 (C.lruSeqCtr c + 1))); [|done].
      by apply Inv2_set_lruSeqCtr, Inv2_set_stats.
    + injection H as <- <-. by apply Inv2_set_stats.
  - injection H as <- <-. by apply Inv2_set_stats.
Qed.

Lemma step_Inv2 (c c' : C.t) :
  Inv c -> Inv2 c -> step c c' -> Inv2 c'.
Proof.
  intros HI HI2 Hs.
  destruct Hs as [c vpn p la c' s H | c va la u c' r H | c c' H].
  - by eapply insert_Inv2.
  - by eapply lookup_Inv2.
  - destruct (flush_spec c HI) as (c1 & Hf & HI1 & Hcfg & Hcl & Htr & _).
    rewrite Hf in H. injection H as <-.
    apply Inv2_all_cleared; [done|]. intros i e He. apply (Hcl i); [|done].
    rewrite <- (inv_len c1 HI1). by eapply lookup_lt_Some.
Qed.

Lemma reachable_Inv2 (c0 c : C.t) :
  Inv c0 -> Inv2 c0 -> reachable c0 c -> Inv2 c.
Proof.
  intros HI0 HI20. induction 1 as [|c c' Hr IH Hs]; [done|].
  eapply step_Inv2; [|exact IH|exact Hs].
  exact (proj1 (reachable_Inv c0 c HI0 Hr)).
Qed.

Lemma reachable_newLevel (lvl : Level) (name : string) (n : nat) (seq0 : Z)
    (c : C.t) :
  reachable (newLevel lvl name n seq0) c ->
  Inv c /\ Inv2 c /\ sameConfig (newLevel lvl name n seq0) c.
Proof.
  intros Hr.
  destruct (reachable_Inv _ c (newLevel_Inv lvl name n seq0) Hr) as [HI Hcfg].
  split; [done|]. split; [|done].
  exact (reachable_Inv2 _ c (newLevel_Inv lvl name n seq0)
           (newLevel_Inv2 lvl name n seq0) Hr).
Qed.

(** The node that indexes an occupied entry is the only node that
    matches the entry's key. *)
Lemma occupied_lookup (c : C.t) (s : nat) (e : TranslationCacheEntry) (v : Addr) :
  Inv c -> Inv2 c -> C.tc c !! s = Some e -> is_Some (trieHandle e) ->
  index e = C.maskVpn c v ->
  Trie.lookup (C.trie c) (C.maskVpn c v) = Some s.
Proof.
  intros HI HI2 He [h Hh] Hidx.
  destruct (inv2_node c HI2 s e h He Hh) as (n & Hn & Hv & Hho).
  destruct (inv_owner c HI n Hn) as (e' & He' & _ & Hk & Hm).
  rewrite Hv, He in He'. injection He' as <-.
  destruct (Trie.lookup (C.trie c) (C.maskVpn c v)) as [s'|] eqn:Hl.
  - apply trie_lookup_Some in Hl as (m & Hm' & Hmatch & Hval).
    apply (Inv_match_index c v m HI Hm') in Hmatch.
    destruct (inv_owner c HI m Hm') as (_ & _ & _ & _ & Hmm).
    assert (m = n) as ->.
    { eapply (NoDup_fmap_inj_on Trie.handleOf); [apply (inv2_nodup c HI2)|done..|].
      unfold Trie.handleOf. f_equal; congruence. }
    congruence.
  - exfalso. pose proof (proj1 (trie_lookup_None _ _) Hl n Hn) as Hno.
    rewrite (proj2 (Inv_match_index c v n HI Hn)) in Hno; [discriminate|].
    congruence.
Qed.

(** X3. In every state a cache goes through, no two occupied entries
    hold the same key. *)
Theorem X3_occupied_keys_unique (lvl : Level) (name : string) (n : nat)
    (seq0 : Z) (c : C.t) (i j : nat) (ei ej : TranslationCacheEntry) :
  reachable (newLevel lvl name n seq0) c ->
  i <> j ->
  C.tc c !! i = Some ei -> C.tc c !! j = Some ej ->
  is_Some (trieHandle ei) -> is_Some (trieHandle ej) ->
  index ei <> index ej.
Proof.
  intros Hr Hne Hi Hj [hi Hhi] [hj Hhj] Hidx. apply Hne.
  destruct (reachable_newLevel lvl name n seq0 c Hr) as (HI & HI2 & _).
  destruct (inv2_node c HI2 i ei hi Hi Hhi) as (ni & Hni & Hvi & _).
  destruct (inv2_node c HI2 j ej hj Hj Hhj) as (nj & Hnj & Hvj & _).
  destruct (inv_owner c HI ni Hni) as (ei' & Hei' & _ & Hki & Hmi).
  destruct (inv_owner c HI nj Hnj) as (ej' & Hej' & _ & Hkj & Hmj).
  rewrite Hvi, Hi in Hei'. injection Hei' as <-.
  rewrite Hvj, Hj in Hej'. injection Hej' as <-.
  assert (ni = nj) as ->; [|congruence].
  eapply (NoDup_fmap_inj_on Trie.handleOf); [apply (inv2_nodup c HI2)|done..|].
  unfold Trie.handleOf. f_equal; congruence.
Qed.

Lemma X3_witness :
  exists e0 e1,
    C.tc pde2_full !! 0 = Some e0 /\ C.tc pde2_full !! 1 = Some e1
    /\ index e0 <> index e1.
Proof.
  eexists _, _. split; [reflexivity|]. split; [reflexivity|].
  apply (X3_occupied_keys_unique PDECache "pde" 2 0%Z pde2_full 0 1).
  - eapply reach_step; [eapply reach_step; [apply reach_refl|]|].
    + exact (step_insert _ _ _ _ _ _ pde2_insert).
    + exact (step_insert _ _ _ _ _ _ pde2_full_insert).
  - discriminate.
  - reflexivity.
  - reflexivity.
  - by eexists.
  - by eexists.
Defined.

(** ** What [lookup] finds *)

Lemma lookup_returns (c : C.t) (va v : Addr) (la : LegacyAcc) (u : bool) :
  Inv c -> legacyMask (C.level c) va la = Ret v ->
  exists c', C.lookup c va la u
             = Ret (c', Trie.lookup (C.trie c) (C.maskVpn c v)).
Proof.
  intros HI Hv. unfold C.lookup. rewrite Hv. simpl.
  destruct (Trie.lookup (C.trie c) (C.maskVpn c v)) as [s|] eqn:Hl;
    [|by eexists].
  destruct u; [|by eexists].
  apply trie_lookup_Some in Hl as (nd & Hn & _ & Hval).
  destruct (inv_owner c HI nd Hn) as (e & He & _).
  rewrite Hval in He. simpl. rewrite He. by eexists.
Qed.

(** In an invariant state the index maps a derived key to a slot
    exactly when that slot is occupied and holds the key. *)
Lemma trie_lookup_iff_cached (c : C.t) (v : Addr) (s : nat) :
  Inv c -> Inv2 c ->
  Trie.lookup (C.trie c) (C.maskVpn c v) = Some s <->
  exists e, C.tc c !! s = Some e /\ is_Some (trieHandle e)
            /\ index e = C.maskVpn c v.
Proof.
  intros HI HI2. split.
  - intros Hl. apply trie_lookup_Some in Hl as (nd & Hn & Hm & Hval).
    apply (Inv_match_index c v nd HI Hn) in Hm.
    destruct (inv_owner c HI nd Hn) as (e & He & Hh & Hk & _).
    rewrite Hval in He. exists e. split; [done|]. split; [by eexists|].
    congruence.
  - intros (e & He & Hocc & Hidx). by eapply occupied_lookup.
Qed.

(** X4. In every state a cache goes through, [lookup] under a supported
    mode returns, and it returns slot [s] exactly when [s] is occupied
    and holds the key derived from the address: a hit is never on a free
    entry or on another key, and a miss means that no occupied entry
    holds the key. *)
Theorem X4_lookup_hits_iff_cached (lvl : Level) (name : string) (n : nat)
    (seq0 : Z) (c : C.t) (va : Addr) (la : LegacyAcc) (u : bool) :
  reachable (newLevel lvl name n seq0) c ->
  supported lvl la = true ->
  exists c' r idx,
    C.lookup c va la u = Ret (c', r)
    /\ deriveKey c va la = Ret idx
    /\ forall s, r = Some s <->
         exists e, C.tc c !! s = Some e /\ is_Some (trieHandle e)
                   /\ index e = idx.
Proof.
  intros Hr Hsup.
  destruct (reachable_newLevel lvl name n seq0 c Hr) as (HI & HI2 & Hcfg).
  assert (Hlvl : C.level c = lvl)
    by (destruct Hcfg as (_ & -> & _); by destruct lvl).
  rewrite <- Hlvl in Hsup.
  apply (legacyMask_supported _ va) in Hsup as [v Hv].
  destruct (lookup_returns c va v la u HI Hv) as [c' Hl].
  exists c', (Trie.lookup (C.trie c) (C.maskVpn c v)), (C.maskVpn c v).
  split; [exact Hl|]. split; [apply deriveKey_Ret; eauto|].
  intros s. by apply trie_lookup_iff_cached.
Qed.

Lemma X4_witness :
  exists c' r idx,
    C.lookup pde2_one 0x400000%Z NONE true = Ret (c', r)
    /\ deriveKey pde2_one 0x400000%Z NONE = Ret idx
    /\ forall s, r = Some s <->
         exists e, C.tc pde2_one !! s = Some e /\ is_Some (trieHandle e)
                   /\ index e = idx.
Proof.
  apply (X4_lookup_hits_iff_cached PDECache "pde" 2 0%Z pde2_one
           0x400000%Z NONE true).
  - eapply reach_step; [apply reach_refl|].
    exact (step_insert _ _ _ _ _ _ pde2_insert).
  - reflexivity.
Defined.

(** ** What [insert] leaves alone *)

Lemma insert_other_slots (c c' : C.t) (vpn : Addr) (p : PageTableEntry)
    (la : LegacyAcc) (s : nat) :
  C.insert c vpn p la = Ret (c', s) ->
  forall j, j <> s -> C.tc c' !! j = C.tc c !! j.
Proof.
  intros H j Hj. apply insert_inv in H as (v & Hv & [H | H]).
  - by destruct H as (_ & -> & _).
  - destruct H as (Hl & c1 & rest & e0 & Hc1 & Hfl & He0 & ->).
    unfold allocate. simpl. rewrite list_lookup_insert_ne by done.
    destruct (C.freeList c) as [|s0 fl] eqn:Hfl0.
    + apply evictLRU_inv in Hc1 as (lru & e & h & _ & He & Hh & ->).
      simpl in *. rewrite Hfl0 in Hfl. injection Hfl as -> <-.
      by rewrite list_lookup_insert_ne.
    + by injection Hc1 as <-.
Qed.

Lemma insert_other_keys (c c' : C.t) (vpn : Addr) (p : PageTableEntry)
    (la : LegacyAcc) (s : nat) (v' : Addr) (j : nat) :
  Inv c -> Inv2 c -> C.insert c vpn p la = Ret (c', s) -> j <> s ->
  Trie.lookup (C.trie c) (C.maskVpn c v') = Some j ->
  Trie.lookup (C.trie c') (C.maskVpn c v') = Some j.
Proof.
  intros HI HI2 H Hj Hlj. apply insert_inv in H as (v & Hv & [H | H]).
  - by destruct H as (_ & -> & _).
  - destruct H as (Hl & c1 & rest & e0 & Hc1 & Hfl & He0 & ->).
    assert (Hne : C.maskVpn c v' <> C.maskVpn c v) by congruence.
    assert (Hl1 : Trie.lookup (C.trie c1) (C.maskVpn c v') = Some j).
    { destruct (C.freeList c) as [|s0 fl] eqn:Hfl0; [|by injection Hc1 as <-].
      apply evictLRU_inv in Hc1 as (lru & e & h & _ & He & Hh & ->).
      simpl in *. rewrite Hfl0 in Hfl. injection Hfl as -> <-.
      unfold Trie.lookup, Trie.remove in *.
      destruct (find (λ n, Trie.matches n (C.maskVpn c v')) (C.trie c))
        as [nd|] eqn:Hf; [|discriminate].
      simpl in Hlj. injection Hlj as Hval.
      rewrite (find_filter _ _ _ nd Hf); [simpl; by rewrite Hval|].
      apply negb_true_iff, not_true_iff_false. intros Heq.
      apply handle_eqb_eq in Heq.
      apply find_some in Hf as [Hnd _]. apply list_elem_of_In in Hnd.
      destruct (inv2_node c HI2 s e h He Hh) as (nd' & Hnd' & Hv' & Hho').
      assert (nd = nd') as ->
        by (eapply (NoDup_fmap_inj_on Trie.handleOf);
            [apply (inv2_nodup c HI2)|done..|congruence]).
      congruence. }
    destruct (insert_slot_source c c1 HI Hc1) as (_ & Hsc & _).
    destruct Hsc as (_ & _ & _ & HL & _).
    unfold allocate. simpl. unfold Trie.lookup. simpl.
    unfold Trie.matches at 1. simpl. rewrite HL.
    change (Trie.widthMask _) with (indexMask c).
    rewrite !maskVpn_indexMask by apply (inv_cfg c HI).
    destruct (Z.eqb_spec (C.maskVpn c v') (C.maskVpn c v)); [done|].
    exact Hl1.
Qed.

(** X5. An [insert] that returns slot [s] changes no other slot of the
    pool, and every key that [lookup] found in another slot before is
    found in the same slot afterwards: an insert costs at most the one
    entry whose slot it takes. *)
Theorem X5_insert_keeps_other_entries (lvl : Level) (name : string)
    (n : nat) (seq0 : Z) (c c' : C.t) (vpn : Addr) (p : PageTableEntry)
    (la : LegacyAcc) (s : nat) :
  reachable (newLevel lvl name n seq0) c ->
  C.insert c vpn p la = Ret (c', s) ->
  (forall j, j <> s -> C.tc c' !! j = C.tc c !! j)
  /\ forall va' la' u c1 j,
       C.lookup c va' la' u = Ret (c1, Some j) -> j <> s ->
       exists c2, C.lookup c' va' la' u = Ret (c2, Some j).
Proof.
  intros Hr Hins.
  destruct (reachable_newLevel lvl name n seq0 c Hr) as (HI & HI2 & _).
  split; [by eapply insert_other_slots|].
  intros va' la' u c1 j Hl Hj.
  destruct (insert_Inv c c' vpn p la s HI Hins) as [HI' Hcfg].
  apply lookup_inv in Hl as (v' & Hv' & Hr' & _).
  symmetry in Hr'.
  pose proof (insert_other_keys c c' vpn p la s v' j HI HI2 Hins Hj Hr') as Hl'.
  destruct (lookup_returns c' va' v' la' u HI') as [c2 Hc2].
  { destruct Hcfg as (_ & -> & _). done. }
  exists c2. rewrite Hc2. do 2 f_equal.
  destruct Hcfg as (_ & _ & _ & _ & Hm). unfold C.maskVpn in *.
  by rewrite Hm.
Qed.

Lemma X5_witness :
  (forall j, j <> 1 -> C.tc pde2_full !! j = C.tc pde2_one !! j)
  /\ forall va' la' u c1 j,
       C.lookup pde2_one va' la' u = Ret (c1, Some j) -> j <> 1 ->
       exists c2, C.lookup pde2_full va' la' u = Ret (c2, Some j).
Proof.
  apply (X5_insert_keeps_other_entries PDECache "pde" 2 0%Z pde2_one
           pde2_full 0x800000%Z 9%Z NONE 1).
  - eapply reach_step; [apply reach_refl|].
    exact (step_insert _ _ _ _ _ _ pde2_insert).
  - exact pde2_full_insert.
Defined.

(** ** The three outcomes of [insert] *)

(** X6. In every state of a cache with at least one slot, [insert]
    ends in exactly one of three ways: under a mode the level does not
    support it panics; when an occupied entry holds the derived key with
    another payload the payload assertion fails; otherwise it returns an
    entry.  The assertion on the key of a found entry never fails. *)
Theorem X6_insert_outcomes (lvl : Level) (name : string) (n : nat)
    (seq0 : Z) (c : C.t) (vpn : Addr) (p : PageTableEntry) (la : LegacyAcc) :
  0 < n ->
  reachable (newLevel lvl name n seq0) c ->
  match deriveKey c vpn la with
  | Abort f => supported lvl la = false
               /\ C.insert c vpn p la = Abort f /\ exists msg, f = Panic msg
  | Ret idx =>
      supported lvl la = true /\
      ((exists s e, C.tc c !! s = Some e /\ is_Some (trieHandle e)
                    /\ index e = idx /\ nextStepEntry e <> p)
       /\ C.insert c vpn p la
          = Abort (AssertionFailed "newEntry->nextStepEntry == ptentry")
       \/
       (forall s e, C.tc c !! s = Some e -> is_Some (trieHandle e) ->
                    index e = idx -> nextStepEntry e = p)
       /\ exists c' s, C.insert c vpn p la = Ret (c', s))
  end.
Proof.
  intros Hn Hr.
  destruct (reachable_newLevel lvl name n seq0 c Hr) as (HI & HI2 & Hcfg).
  assert (Hlvl : C.level c = lvl)
    by (destruct Hcfg as (_ & -> & _); by destruct lvl).
  assert (Hsz : 0 < C.size c)
    by (destruct Hcfg as (-> & _); by destruct lvl).
  unfold deriveKey, C.insert. rewrite Hlvl.
  destruct (legacyMask lvl vpn la) as [v|f] eqn:Hv; simpl.
  - assert (Hsup : supported lvl la = true)
      by (apply (legacyMask_supported lvl vpn la); eauto).
    split; [exact Hsup|].
    destruct (Trie.lookup (C.trie c) (C.maskVpn c v)) as [s|] eqn:Hl.
    + destruct (proj1 (trie_lookup_iff_cached c v s HI HI2) Hl)
        as (e & He & Hocc & Hidx).
      rewrite He, Hidx, Z.eqb_refl. simpl.
      destruct (Z.eqb_spec (nextStepEntry e) p) as [Hp | Hp]; simpl.
      * right. split; [|by eexists _, _].
        intros s' e' He' Hocc' Hidx'.
        assert (Hl' := proj2 (trie_lookup_iff_cached c v s' HI HI2)
                         (ex_intro _ e' (conj He' (conj Hocc' Hidx')))).
        rewrite Hl in Hl'. injection Hl' as <-. congruence.
      * left. split; [|reflexivity]. exists s, e. done.
    + right. split.
      * intros s e He Hocc Hidx.
        assert (Hl' := proj2 (trie_lookup_iff_cached c v s HI HI2)
                         (ex_intro _ e (conj He (conj Hocc Hidx)))).
        rewrite Hl in Hl'. discriminate.
      * rewrite <- Hlvl in Hsup, Hv.
        destruct (insert_returns c vpn p la HI Hsz Hsup) as (c' & s & Hins).
        { intros idx s e Hk Hs. apply deriveKey_Ret in Hk as (v0 & Hv0 & ->).
          rewrite Hv in Hv0. injection Hv0 as <-. rewrite Hl in Hs.
          discriminate. }
        exists c', s. rewrite <- Hins. unfold C.insert. rewrite Hv. simpl.
        by rewrite Hl.
  - split; [|split; [reflexivity|]].
    + apply not_true_iff_false. intros Hsup.
      apply (legacyMask_supported lvl vpn la) in Hsup as [v' Hv'].
      rewrite Hv in Hv'. discriminate.
    + destruct lvl, la; simpl in Hv; try discriminate;
        injection Hv as <-; by eexists.
Qed.

Lemma X6_witness :
  match deriveKey pde2_one 0x400000%Z NONE with
  | Abort f => supported PDECache NONE = false
               /\ C.insert pde2_one 0x400000%Z 8%Z NONE = Abort f
               /\ exists msg, f = Panic msg
  | Ret idx =>
      supported PDECache NONE = true /\
      ((exists s e, C.tc pde2_one !! s = Some e /\ is_Some (trieHandle e)
                    /\ index e = idx /\ nextStepEntry e <> 8%Z)
       /\ C.insert pde2_one 0x400000%Z 8%Z NONE
          = Abort (AssertionFailed "newEntry->nextStepEntry == ptentry")
       \/
       (forall s e, C.tc pde2_one !! s = Some e -> is_Some (trieHandle e) ->
                    index e = idx -> nextStepEntry e = 8%Z)
       /\ exists c' s, C.insert pde2_one 0x400000%Z 8%Z NONE = Ret (c', s))
  end.
Proof.
  apply (X6_insert_outcomes PDECache "pde" 2 0%Z pde2_one 0x400000%Z 8%Z NONE).
  - lia.
  - eapply reach_step; [apply reach_refl|].
    exact (step_insert _ _ _ _ _ _ pde2_insert).
Defined.
